(** * Bulls and Cows: [src/game_logic.py] and [src/cli_game.py], embedded
    and verified

    The development has these parts.

    - [Py]: the small part of the Python 3 runtime that the game logic
      relies on: exceptions, [str] as a sequence of Unicode code points,
      [str.isdigit], [str.strip], indexing, [str(int)], the text files
      behind [open], and [random.sample] over an abstract random source.
    - [game_logic]: the functions of [src/game_logic.py], one definition
      per Python function, under the names of the source; the two that
      write files come with the file system, after the others.
    - The reference definitions that the specification words (its scoring
      rule, its well-formed strings), and the space of random draws.
    - [cli_game]: the terminal game of [src/cli_game.py], over the lines
      that the user enters.
    - The properties of the specification, proved about [game_logic],
      then further properties of the scoring, of saving and loading, and
      of the terminal game.

    [src/web_app.py] is not embedded: what its functions do depends on
    the page framework that runs them. *)

From stdpp Require Import gmap strings list fin_maps.
From Stdlib Require Import ZArith NArith QArith Decimal.

#[local] Open Scope Z_scope.
#[local] Open Scope nat_scope.

(* ===================================================================== *)
(** * The Python runtime                                                  *)
(* ===================================================================== *)

Module Py.

(** The built-in exceptions the game logic can meet.  The last one is
    never raised by the code: it marks the one part of the runtime that
    this model leaves out (see [sample]). *)
Inductive exn : Set :=
  | IndexError
  | KeyError
  | ValueError
  | FileNotFoundError
  | NotImplementedError.

#[global] Instance exn_eq_dec : EqDecision exn.
Proof. solve_decision. Defined.

(** A call either returns a value or raises. *)
Inductive outcome (A : Type) : Type :=
  | Ok (a : A)
  | Raise (e : exn).
Arguments Ok {A} a.
Arguments Raise {A} e.

#[global] Instance outcome_ret : MRet outcome := @Ok.
#[global] Instance outcome_bind : MBind outcome := λ A B f m,
  match m with
  | Ok a => f a
  | Raise e => Raise e
  end.

Definition returns {A} (m : outcome A) : Prop := ∃ a, m = Ok a.

(** A [str] is a sequence of code points; a code point is a number
    (U+0000 .. U+10FFFF in CPython, which nothing below depends on). *)
Abbreviation char := N (only parsing).
Abbreviation str := (list N) (only parsing).

(** A literal of the source, all of whose characters are ASCII. *)
Definition lit (s : string) : str :=
  Ascii.N_of_ascii <$> String.list_ascii_of_string s.

Definition in_ranges (table : list (N * N)) (c : char) : bool :=
  existsb (λ r, (r.1 <=? c)%N && (c <=? r.2)%N) table.

(** The code points [c] with [chr(c).isdigit()], that is, with Unicode
    property Numeric_Type=Decimal or Numeric_Type=Digit, as inclusive
    ranges (Unicode 14.0.0, the database of CPython 3.11). *)
Definition digit_ranges : list (N * N) :=
  [ (48, 57); (178, 179); (185, 185); (1632, 1641); (1776, 1785);
    (1984, 1993); (2406, 2415); (2534, 2543); (2662, 2671); (2790, 2799);
    (2918, 2927); (3046, 3055); (3174, 3183); (3302, 3311); (3430, 3439);
    (3558, 3567); (3664, 3673); (3792, 3801); (3872, 3881); (4160, 4169);
    (4240, 4249); (4969, 4977); (6112, 6121); (6160, 6169); (6470, 6479);
    (6608, 6618); (6784, 6793); (6800, 6809); (6992, 7001); (7088, 7097);
    (7232, 7241); (7248, 7257); (8304, 8304); (8308, 8313); (8320, 8329);
    (9312, 9320); (9332, 9340); (9352, 9360); (9450, 9450); (9461, 9469);
    (9471, 9471); (10102, 10110); (10112, 10120); (10122, 10130);
    (42528, 42537); (43216, 43225); (43264, 43273); (43472, 43481);
    (43504, 43513); (43600, 43609); (44016, 44025); (65296, 65305);
    (66720, 66729); (68160, 68163); (68912, 68921); (69216, 69224);
    (69714, 69722); (69734, 69743); (69872, 69881); (69942, 69951);
    (70096, 70105); (70384, 70393); (70736, 70745); (70864, 70873);
    (71248, 71257); (71360, 71369); (71472, 71481); (71904, 71913);
    (72016, 72025); (72784, 72793); (73040, 73049); (73120, 73129);
    (92768, 92777); (92864, 92873); (93008, 93017); (120782, 120831);
    (123200, 123209); (123632, 123641); (125264, 125273);
    (127232, 127242); (130032, 130041) ]%N.

(** The code points [c] with [chr(c).isspace()]. *)
Definition space_ranges : list (N * N) :=
  [ (9, 13); (28, 32); (133, 133); (160, 160); (5760, 5760);
    (8192, 8202); (8232, 8233); (8239, 8239); (8287, 8287);
    (12288, 12288) ]%N.

Definition isdigit_char (c : char) : bool := in_ranges digit_ranges c.
Definition isspace_char (c : char) : bool := in_ranges space_ranges c.

(** [s.isdigit()]: every character is a digit and there is at least one
    character. *)
Definition isdigit (s : str) : bool :=
  match s with
  | [] => false
  | _ :: _ => forallb isdigit_char s
  end.

(** [s.strip()]: leading and trailing whitespace removed. *)
Fixpoint lstrip (s : str) : str :=
  match s with
  | c :: s' => if isspace_char c then lstrip s' else s
  | [] => []
  end.
Definition rstrip (s : str) : str := reverse (lstrip (reverse s)).
Definition strip (s : str) : str := rstrip (lstrip s).

(** [l[i]] for an index [i >= 0]. *)
Definition getitem {A} (l : list A) (i : nat) : outcome A :=
  match l !! i with
  | Some x => Ok x
  | None => Raise IndexError
  end.

(** [c in s] for a one-character [c]. *)
Definition contains (s : str) (c : char) : bool := bool_decide (c ∈ s).

(** [len(set(s))]. *)
Definition len_set (s : str) : nat := size (list_to_set s : gset N).

(** [d[key] += 1] on a dict with integer values. *)
Definition increment (key : string) (d : gmap string Z) : outcome (gmap string Z) :=
  match d !! key with
  | Some v => Ok (<[key := (v + 1)%Z]> d)
  | None => Raise KeyError
  end.

(** [str(n)] for an integer [n >= 0]: its decimal digits. *)
Fixpoint str_of_uint (u : Decimal.uint) : str :=
  match u with
  | Nil => []
  | D0 u => 48%N :: str_of_uint u
  | D1 u => 49%N :: str_of_uint u
  | D2 u => 50%N :: str_of_uint u
  | D3 u => 51%N :: str_of_uint u
  | D4 u => 52%N :: str_of_uint u
  | D5 u => 53%N :: str_of_uint u
  | D6 u => 54%N :: str_of_uint u
  | D7 u => 55%N :: str_of_uint u
  | D8 u => 56%N :: str_of_uint u
  | D9 u => 57%N :: str_of_uint u
  end.
Definition str_of_int (n : nat) : str := str_of_uint (Nat.to_uint n).

(** [''.join(parts)]. *)
Definition join (parts : list str) : str := concat parts.

(** [range(n)]. *)
Definition range (n : nat) : list nat := seq 0 n.

(** ** Text files

    The files reachable through [open]: a path either names a readable
    text file, with its decoded content, or names nothing. *)
Definition read_text (fs : gmap string (list N)) (filepath : string) : outcome str :=
  match fs !! filepath with
  | Some content => Ok content
  | None => Raise FileNotFoundError
  end.

(** ** Randomness

    [random.Random._randbelow(n)] returns, for [n > 0], an integer in
    [[0, n)] and advances the generator.  The generator itself is kept
    abstract. *)
Class RandomSource (G : Type) := {
  randbelow : nat → G → nat * G;
  randbelow_lt n g : 0 < n → (randbelow n g).1 < n
}.

Section sample.
Context {G : Type} `{!RandomSource G} {A : Type}.

(** The pool loop of [random.sample]:
<<
    for i in range(k):
        j = randbelow(n - i)
        result[i] = pool[j]
        pool[j] = pool[n - i - 1]
>>
    [todo] is the number of iterations left; [result] holds the slots
    filled so far, in order. *)
Fixpoint sample_pool (todo i n : nat) (pool result : list A) (g : G)
    : outcome (list A * G) :=
  match todo with
  | 0 => Ok (result, g)
  | S todo' =>
      let '(j, g') := randbelow (n - i) g in
      x ← getitem pool j;
      y ← getitem pool (n - i - 1);
      sample_pool todo' (S i) n (<[j := y]> pool) (result ++ [x]) g'
  end.

(** [random.sample(population, k)] for [k <= 5], where [setsize] is 21.
    A population of more than 21 elements is sampled by another loop,
    of rejected draws, which [game_logic] never reaches (it samples 4
    out of 10); it is left out here, and asked for, it raises. *)
Definition sample (population : list A) (k : nat) (g : G)
    : outcome (list A * G) :=
  let n := length population in
  if negb (bool_decide (k ≤ n)) then Raise ValueError
  else if bool_decide (k ≤ 5 ∧ n ≤ 21) then sample_pool k 0 n population [] g
  else Raise NotImplementedError.
(** The draws that the pool loop takes from the random source, and the
    state in which it leaves the source. *)
Fixpoint draws_of (todo i n : nat) (g : G) : list nat * G :=
  match todo with
  | 0 => ([], g)
  | S todo' =>
      let '(j, g') := randbelow (n - i) g in
      let '(js, g'') := draws_of todo' (S i) n g' in
      (j :: js, g'')
  end.

End sample.

(** A random source that replays a script of draws: [randbelow n] takes
    the next entry, reduced below [n]. *)
Definition script_randbelow (n : nat) (g : list nat) : nat * list nat :=
  match g with
  | d :: g' => (d mod n, g')
  | [] => (0, [])
  end.

#[global] Instance script_source : RandomSource (list nat).
Proof.
  refine {| randbelow := script_randbelow |}.
  intros n [|d g] Hn; simpl; [lia|]. apply Nat.mod_upper_bound. lia.
Defined.

End Py.

Import Py.

(* ===================================================================== *)
(** * [src/game_logic.py]                                                 *)
(* ===================================================================== *)

Module game_logic.

(** [generate_secret_number()]:
<<
    digits = random.sample(range(10), 4)
    secret = ''.join(map(str, digits))
    return secret
>> *)
Definition generate_secret_number {G} `{!RandomSource G} (g : G)
    : outcome (list N * G) :=
  '(digits, g') ← sample (range 10) 4 g;
  let secret := join (str_of_int <$> digits) in
  Ok (secret, g').

(** [load_secret_number(filepath)]:
<<
    with open(filepath, "r") as file:
        return file.read().strip()
>> *)
Definition load_secret_number (fs : gmap string (list N)) (filepath : string)
    : outcome (list N) :=
  content ← read_text fs filepath;
  Ok (strip content).

(** [evaluate_guess(guess, secret)]: the body of the loop
<<
    for idx, digit in enumerate(guess):
        if digit in secret:
            if secret[idx] == digit:
                result['bulls'] += 1
            else:
                result['cows'] += 1
>> *)
Definition evaluate_step (secret : list N) (idx : nat) (digit : N)
    (result : gmap string Z) : outcome (gmap string Z) :=
  if contains secret digit then
    at_idx ← getitem secret idx;
    if bool_decide (at_idx = digit) then increment "bulls" result
    else increment "cows" result
  else Ok result.

Fixpoint evaluate_loop (secret : list N) (idx : nat) (guess : list N)
    (result : gmap string Z) : outcome (gmap string Z) :=
  match guess with
  | [] => Ok result
  | digit :: guess' =>
      result' ← evaluate_step secret idx digit result;
      evaluate_loop secret (S idx) guess' result'
  end.

Definition evaluate_guess (guess secret : list N) : outcome (gmap string Z) :=
  let result : gmap string Z := {[ "bulls" := 0%Z; "cows" := 0%Z ]} in
  evaluate_loop secret 0 guess result.

(** [is_valid_guess(guess)]:
<<
    if not guess.isdigit():
        return False, "Input must contain only digits"
    if len(guess) != 4:
        return False, "Input must be exactly 4 digits long"
    if len(set(guess)) != 4:
        return False, "All digits must be unique"
    return True, ""
>> *)
Definition is_valid_guess (guess : list N) : bool * string :=
  if negb (isdigit guess) then (false, "Input must contain only digits"%string)
  else if negb (bool_decide (length guess = 4)) then
    (false, "Input must be exactly 4 digits long"%string)
  else if negb (bool_decide (len_set guess = 4)) then
    (false, "All digits must be unique"%string)
  else (true, ""%string).

End game_logic.

Import game_logic.

(* ===================================================================== *)
(** * The reference definitions of the specification                      *)
(* ===================================================================== *)

(** A score, as the specification writes it: [{bulls, cows}]. *)
Record score : Set := Score { bulls : Z; cows : Z }.

(** The dict that [evaluate_guess] returns for a score. *)
Definition score_dict (s : score) : gmap string Z :=
  {[ "bulls" := bulls s; "cows" := cows s ]}.

Inductive verdict : Set := Miss | Bull | Cow.

#[global] Instance verdict_eq_dec : EqDecision verdict.
Proof. solve_decision. Defined.

(** The scoring rule of the specification, for position [i] of the guess,
    holding the character [g]: a character that occurs nowhere in the
    secret contributes to neither count; else, if it equals the secret's
    character at [i], it is a bull; else it is a cow. *)
Definition judge (secret : list N) (i : nat) (g : N) : verdict :=
  if bool_decide (g ∉ secret) then Miss
  else if bool_decide (secret !! i = Some g) then Bull
  else Cow.

Definition tally (v : verdict) (vs : list verdict) : Z :=
  Z.of_nat (length (filter (λ x, x = v) vs)).

Definition evaluate_guess_ref (guess secret : list N) : score :=
  let verdicts := imap (judge secret) guess in
  {| bulls := tally Bull verdicts; cows := tally Cow verdicts |}.

(** The characters of a secret: the ten ASCII digits. *)
Definition is_decimal (c : N) : Prop := (48 ≤ c ≤ 57)%N.

(** A well-formed secret or guess: four pairwise distinct decimal digits. *)
Definition well_formed (s : list N) : Prop :=
  length s = 4 ∧ Forall is_decimal s ∧ NoDup s.

(* ===================================================================== *)
(** * Definitions for the statements                                      *)
(* ===================================================================== *)

(** The guess [12³4]: the digits 1, 2 and 4 around SUPERSCRIPT THREE
    (U+00B3), which [str.isdigit] takes for a digit. *)
Definition guess_superscript : list N := lit "12" ++ [179%N] ++ lit "4".

(** The reasons of the specification, as it words them. *)
Definition spec_reason_digits : string := "must contain only digits".
Definition spec_reason_length : string := "must be exactly 4 digits long".
Definition spec_reason_unique : string := "all digits must be unique".

(** The default of the [filepath] argument. *)
Definition default_filepath : string := "data/secret_number.txt".

(** [str(d)] of a one-digit number is its ASCII digit. *)
Definition digit_char (d : nat) : N := (48 + N.of_nat d)%N.

#[global] Instance digit_char_inj : Inj (=) (=) digit_char.
Proof. intros x y Hxy. unfold digit_char in Hxy. lia. Qed.

(** The draws that [generate_secret_number] asks of the random source:
    [randbelow(10)], [randbelow(9)], [randbelow(8)], [randbelow(7)].
    [tuples bounds] lists every sequence of draws, the [i]-th below the
    [i]-th bound. *)
Fixpoint tuples (bounds : list nat) : list (list nat) :=
  match bounds with
  | [] => [[]]
  | b :: bounds' => j ← seq 0 b; (j ::.) <$> tuples bounds'
  end.

Definition draw_space : list (list nat) := tuples [10; 9; 8; 7].

(** The secret that a sequence of draws leads to. *)
Definition secret_of_draws (draws : list nat) : option (list N) :=
  match generate_secret_number draws with
  | Ok (secret, _) => Some secret
  | Raise _ => None
  end.

(** The number of sequences of draws that lead to [secret], and, the
    draws of [randbelow] being uniform and independent, the probability
    that [generate_secret_number] returns [secret]. *)
Definition ways (secret : list N) : nat :=
  length (filter (λ draws, secret_of_draws draws = Some secret) draw_space).

Definition probability (secret : list N) : Q :=
  Z.of_nat (ways secret) # Pos.of_nat (length draw_space).

(** The draws that lead to a given secret, found by running the pool loop
    backwards: the draw is the place of the digit in the live part of the
    pool. *)
Fixpoint unsample (i n : nat) (pool digits : list nat) : option (list nat) :=
  match digits with
  | [] => Some []
  | d :: digits' =>
      '(j, _) ← list_find (λ x, x = d) (take (n - i) pool);
      y ← pool !! (n - i - 1);
      js ← unsample (S i) n (<[j := y]> pool) digits';
      Some (j :: js)
  end.

Definition draws_of_secret (secret : list N) : option (list nat) :=
  unsample 0 10 (range 10) ((λ c, N.to_nat (c - 48)) <$> secret).

#[global] Instance is_decimal_dec c : Decision (is_decimal c).
Proof. unfold is_decimal. apply _. Defined.

#[global] Instance well_formed_dec s : Decision (well_formed s).
Proof. unfold well_formed. apply _. Defined.

(** The strings of four decimal digits. *)
Definition decimal_chars : list N := digit_char <$> seq 0 10.

Definition candidates : list (list N) :=
  a ← decimal_chars; b ← decimal_chars; c ← decimal_chars; d ← decimal_chars;
  [[a; b; c; d]].

(** Every sequence of draws leads to a well-formed secret, from which
    [draws_of_secret] recovers the draws. *)
Definition check_forward : bool :=
  forallb (λ draws,
    match secret_of_draws draws with
    | Some secret =>
        bool_decide (well_formed secret)
        && bool_decide (draws_of_secret secret = Some draws)
    | None => false
    end) draw_space.

(** Every well-formed secret is led to by its [draws_of_secret]. *)
Definition check_backward : bool :=
  forallb (λ secret,
    if bool_decide (well_formed secret) then
      match draws_of_secret secret with
      | Some draws =>
          bool_decide (Forall2 lt draws [10; 9; 8; 7])
          && bool_decide (secret_of_draws draws = Some secret)
      | None => false
      end
    else true) candidates.

(** The number of positions at which two strings agree, and the number
    of positions of the guess whose character occurs in the secret. *)
Definition matches (guess secret : list N) : nat :=
  length (filter (λ p, p.1 = p.2) (zip guess secret)).

Definition hits (guess secret : list N) : nat :=
  length (filter (λ g, g ∈ secret) guess).

(** A guess overruns the secret when, past the secret's length, it holds
    a character that occurs in the secret. *)
Definition overrun (guess secret : list N) : Prop :=
  Exists (λ g, g ∈ secret) (drop (length secret) guess).

(* ===================================================================== *)
(** * Persistence: the rest of the runtime and of [game_logic]            *)
(* ===================================================================== *)

(** What [read()] makes, in text mode, of the characters written to a
    file: a carriage return, alone or before a line feed, is read as a
    line feed (universal newlines; on POSIX, writing translates
    nothing). *)
Fixpoint universal_newlines (s : list N) : list N :=
  match s with
  | [] => []
  | c :: s' =>
      if bool_decide (c = 13%N) then
        10%N :: match s' with
                | c' :: s'' =>
                    if bool_decide (c' = 10%N) then universal_newlines s''
                    else universal_newlines s'
                | [] => []
                end
      else c :: universal_newlines s'
  end.

Fixpoint drop_while {A} (P : A → bool) (l : list A) : list A :=
  match l with
  | x :: l' => if P x then drop_while P l' else l
  | [] => []
  end.

(** [l.rstrip(...)], for the characters that satisfy [P]. *)
Definition rstrip_while {A} (P : A → bool) (l : list A) : list A :=
  reverse (drop_while P (reverse l)).

Definition is_sep (a : Ascii.ascii) : bool := bool_decide (a = Ascii.ascii_of_N 47).

(** [posixpath.dirname(p)]:
<<
    i = p.rfind(sep) + 1
    head = p[:i]
    if head and head != sep*len(head):
        head = head.rstrip(sep)
    return head
>>
    A path is a [string] of bytes, the UTF-8 encoding of the Python
    [str]; the separator is a byte of its own in that encoding. *)
Definition dirname (p : string) : string :=
  let head := rstrip_while (λ a, negb (is_sep a)) (String.list_ascii_of_string p) in
  let head :=
    if negb (bool_decide (head = [])) && negb (forallb is_sep head)
    then rstrip_while is_sep head
    else head in
  String.string_of_list_ascii head.

(** The file system, as far as [game_logic] uses it.  [makedirs name] is
    [os.makedirs(name, exist_ok=True)]; [write_text filepath content] is
<<
    with open(filepath, "w") as file:
        file.write(content)
>>
    and [text_files] gives, for each path, what
    [open(path, "r").read()] returns.  Two facts about them are used:
    [os.makedirs] raises [FileNotFoundError] on the empty path, and a
    file that was written reads back as written, up to the newlines. *)
Class FileSystem (S : Type) := {
  makedirs : string → S → outcome S;
  write_text : string → list N → S → outcome S;
  text_files : S → gmap string (list N);
  makedirs_empty s : makedirs "" s = Raise FileNotFoundError;
  write_text_read filepath content s s' :
    write_text filepath content s = Ok s' →
    text_files s' !! filepath = Some (universal_newlines content)
}.

(** [save_secret_number(secret, filepath)]:
<<
    os.makedirs(os.path.dirname(filepath), exist_ok=True)
    with open(filepath, "w") as file:
        file.write(secret)
>> *)
Definition save_secret_number {S} `{!FileSystem S}
    (secret : list N) (filepath : string) (s : S) : outcome S :=
  s ← makedirs (dirname filepath) s;
  write_text filepath secret s.

(** [generate_and_save_secret()]:
<<
    secret = generate_secret_number()
    save_secret_number(secret)
    return secret
>> *)
Definition generate_and_save_secret {G S} `{!RandomSource G, !FileSystem S}
    (g : G) (s : S) : outcome (list N * G * S) :=
  '(secret, g) ← generate_secret_number g;
  s ← save_secret_number secret default_filepath s;
  Ok (secret, g, s).

(** A file system without directories to speak of: every directory but
    the empty path exists, and every file can be written. *)
Definition store_makedirs (name : string) (s : gmap string (list N))
    : outcome (gmap string (list N)) :=
  if bool_decide (name = ""%string) then Raise FileNotFoundError else Ok s.

Definition store_write_text (filepath : string) (content : list N)
    (s : gmap string (list N)) : outcome (gmap string (list N)) :=
  Ok (<[filepath := universal_newlines content]> s).

#[global] Instance store_file_system : FileSystem (gmap string (list N)).
Proof.
  refine {| makedirs := store_makedirs;
            write_text := store_write_text;
            text_files := λ s, s |}.
  - done.
  - intros filepath content s s' [= <-]. apply lookup_insert_eq.
Defined.

(** A string that whitespace neither begins nor ends. *)
Definition begins_with_space (s : list N) : Prop :=
  match s with
  | c :: _ => isspace_char c = true
  | [] => False
  end.

Definition unpadded (s : list N) : Prop :=
  ¬ begins_with_space s ∧ ¬ begins_with_space (reverse s).

(* ===================================================================== *)
(** * [src/cli_game.py]                                                   *)
(* ===================================================================== *)

(** [d[key]] on a dict. *)
Definition dict_getitem (d : gmap string Z) (key : string) : outcome Z :=
  match d !! key with
  | Some v => Ok v
  | None => Raise KeyError
  end.

Module cli_game.

(** The terminal.  The standard input is the list of the lines that the
    user will enter; [input] takes the first, and raises [EOFError] when
    none is left.  The standard output is the list of what was printed;
    a message is kept with the values that it is formatted from, not as
    rendered text (the elapsed time, a float, is left out). *)
Inductive message : Type :=
  | Welcome
  | History (entries : list (list N * Z * Z))
  | Ask_guess
  | Invalid (error_msg : string)
  | Farewell (secret : list N)
  | Congratulations (secret : list N) (attempts : Z)
  | Result (bulls cows : Z)
  | Ask_again
  | Please_y_or_n
  | Goodbye.

(** How a run of the game can stop short: on an exception of the game
    logic, on [EOFError], or, in this model only, for want of fuel in a
    [while True] loop. *)
Inductive stop : Set :=
  | Exception (e : exn)
  | EOFError
  | OutOfFuel.

Inductive run (A : Type) : Type :=
  | Done (a : A)
  | Stop (why : stop).
Arguments Done {A} a.
Arguments Stop {A} why.

#[global] Instance run_ret : MRet run := @Done.
#[global] Instance run_bind : MBind run := λ A B f m,
  match m with
  | Done a => f a
  | Stop why => Stop why
  end.

Definition lift {A} (m : outcome A) : run A :=
  match m with
  | Ok a => Done a
  | Raise e => Stop (Exception e)
  end.

(** The state of a [BullsAndCowsCLI] object ([start_time] is left out). *)
Record game : Type := Game {
  secret : list N;
  attempts : Z;
  history : list (list N * gmap string Z)
}.

(** [BullsAndCowsCLI.__init__]. *)
Definition new_game {G} `{!RandomSource G} (g : G) : outcome (game * G) :=
  '(secret, g) ← generate_secret_number g;
  Ok ({| secret := secret; attempts := 0; history := [] |}, g).

(** The lines of [display_history]:
<<
    for i, (guess, result) in enumerate(self.history, 1):
        print(f"{i:2d}. {guess} ➜ {result['bulls']} Bulls, {result['cows']} Cows")
>> *)
Fixpoint history_entries (history : list (list N * gmap string Z))
    : outcome (list (list N * Z * Z)) :=
  match history with
  | [] => Ok []
  | (guess, result) :: history' =>
      b ← dict_getitem result "bulls";
      c ← dict_getitem result "cows";
      entries ← history_entries history';
      Ok ((guess, b, c) :: entries)
  end.

(** [display_history]: nothing is printed for an empty history. *)
Definition display_history (self : game) : outcome (list message) :=
  match history self with
  | [] => Ok []
  | _ :: _ => entries ← history_entries (history self); Ok [History entries]
  end.

Section terminal.

(** [str.lower], which the game applies to what the user enters; nothing
    is assumed of it. *)
Variable lower : list N → list N.

(** [get_valid_guess]:
<<
    while True:
        guess = input("Enter your guess (4 unique digits): ").strip().lower()
        if guess == 'quit':
            return guess
        valid, error_msg = is_valid_guess(guess)
        if valid:
            return guess
        else:
            print(f"❌ Invalid input: {error_msg}. Please try again.")
>> *)
Fixpoint get_valid_guess (stdin : list (list N)) (stdout : list message)
    : run (list N * list (list N) * list message) :=
  match stdin with
  | [] => Stop EOFError
  | entered :: stdin' =>
      let guess := lower (strip entered) in
      let stdout := stdout ++ [Ask_guess] in
      if bool_decide (guess = lit "quit") then Done (guess, stdin', stdout)
      else
        let '(valid, error_msg) := is_valid_guess guess in
        if valid then Done (guess, stdin', stdout)
        else get_valid_guess stdin' (stdout ++ [Invalid error_msg])
  end.

(** The loop of [play_game]:
<<
    while True:
        self.display_history()
        guess = self.get_valid_guess()
        if guess == 'quit':
            print(...); break
        self.attempts += 1
        if guess == self.secret:
            print(...); break
        result = evaluate_guess(guess, self.secret)
        self.history.append((guess, result))
        print(f"\n🔍 Result: {result['bulls']} Bulls, {result['cows']} Cows")
>> *)
Fixpoint play_loop (fuel : nat) (self : game)
    (stdin : list (list N)) (stdout : list message)
    : run (game * list (list N) * list message) :=
  match fuel with
  | 0 => Stop OutOfFuel
  | S fuel' =>
      shown ← lift (display_history self);
      '(guess, stdin, stdout) ← get_valid_guess stdin (stdout ++ shown);
      if bool_decide (guess = lit "quit") then
        Done (self, stdin, stdout ++ [Farewell (secret self)])
      else
        let self :=
          {| secret := secret self; attempts := attempts self + 1;
             history := history self |} in
        if bool_decide (guess = secret self) then
          Done (self, stdin,
                stdout ++ [Congratulations (secret self) (attempts self)])
        else
          result ← lift (evaluate_guess guess (secret self));
          let self :=
            {| secret := secret self; attempts := attempts self;
               history := history self ++ [(guess, result)] |} in
          b ← lift (dict_getitem result "bulls");
          c ← lift (dict_getitem result "cows");
          play_loop fuel' self stdin (stdout ++ [Result b c])
  end.

(** [play_game].  Every turn of the loop takes a line of the input, so
    that one turn more than there are lines is all that can be run. *)
Definition play_game (self : game)
    (stdin : list (list N)) (stdout : list message)
    : run (game * list (list N) * list message) :=
  play_loop (S (length stdin)) self stdin (stdout ++ [Welcome]).

(** [play_again]:
<<
    while True:
        response = input("\nDo you want to play again? (y/n): ").strip().lower()
        if response in ['y', 'yes']:
            return True
        elif response in ['n', 'no']:
            return False
        else:
            print("Please enter 'y' or 'n'.")
>> *)
Fixpoint play_again (stdin : list (list N)) (stdout : list message)
    : run (bool * list (list N) * list message) :=
  match stdin with
  | [] => Stop EOFError
  | entered :: stdin' =>
      let response := lower (strip entered) in
      let stdout := stdout ++ [Ask_again] in
      if bool_decide (response ∈ [lit "y"; lit "yes"]) then
        Done (true, stdin', stdout)
      else if bool_decide (response ∈ [lit "n"; lit "no"]) then
        Done (false, stdin', stdout)
      else play_again stdin' (stdout ++ [Please_y_or_n])
  end.

(** The loop of [main]:
<<
    while play_again:
        game = BullsAndCowsCLI()
        game.play_game()
        play_again = game.play_again()
>> *)
Fixpoint main_loop {G} `{!RandomSource G} (fuel : nat) (g : G)
    (stdin : list (list N)) (stdout : list message)
    : run (G * list (list N) * list message) :=
  match fuel with
  | 0 => Stop OutOfFuel
  | S fuel' =>
      '(self, g) ← lift (new_game g);
      '(_, stdin, stdout) ← play_game self stdin stdout;
      '(again, stdin, stdout) ← play_again stdin stdout;
      if again : bool then main_loop fuel' g stdin stdout
      else Done (g, stdin, stdout)
  end.

(** [main]. *)
Definition main {G} `{!RandomSource G} (g : G) (stdin : list (list N))
    : run (G * list (list N) * list message) :=
  '(g, stdin, stdout) ← main_loop (S (length stdin)) g stdin [];
  Done (g, stdin, stdout ++ [Goodbye]).

End terminal.

(** [str.lower] on the letters A to Z, for the examples: on a string of
    ASCII characters it is [str.lower]. *)
Definition ascii_lower (s : list N) : list N :=
  (λ c, if (65 <=? c)%N && (c <=? 90)%N then (c + 32)%N else c) <$> s.

End cli_game.

(** A line that [get_valid_guess] rejects: it is not the word [quit] and
    does not pass the validator. *)
Definition rejected (lower : list N → list N) (entered : list N) : Prop :=
  lower (strip entered) ≠ lit "quit"
  ∧ (is_valid_guess (lower (strip entered))).1 = false.

(** What [get_valid_guess] prints for the lines that it rejects. *)
Definition rejections (lower : list N → list N) (skipped : list (list N))
    : list cli_game.message :=
  skipped ≫= λ entered,
    [cli_game.Ask_guess;
     cli_game.Invalid (is_valid_guess (lower (strip entered))).2].

(** An entry of the history as the game keeps it: a validated guess that
    is not the secret, with its score. *)
Definition scored (secret : list N) (entry : list N * gmap string Z) : Prop :=
  is_valid_guess entry.1 = (true, ""%string)
  ∧ entry.1 ≠ secret
  ∧ entry.2 = score_dict (evaluate_guess_ref entry.1 secret).

(** A game in play: its secret passes the validator and its history is
    made of scored entries. *)
Definition in_play (self : cli_game.game) : Prop :=
  is_valid_guess (cli_game.secret self) = (true, ""%string)
  ∧ Forall (scored (cli_game.secret self)) (cli_game.history self).

(** The course of a game, read off the lines that the user enters.  The
    lines are taken in order, each stripped and lowered.  The word [quit]
    ends the game; a line that does not pass the validator is passed
    over; the secret ends the game, won; any other validated guess is a
    miss, and the game goes on.  [replay] gives the misses in the order
    entered, how the game ended and the lines left unread; it gives
    nothing when the lines run out before the game ends. *)
Inductive ending : Set := Quit | Won.

Fixpoint replay (lower : list N → list N) (secret : list N)
    (stdin : list (list N))
    : option (list (list N) * ending * list (list N)) :=
  match stdin with
  | [] => None
  | entered :: stdin' =>
      let guess := lower (strip entered) in
      if bool_decide (guess = lit "quit") then Some ([], Quit, stdin')
      else if negb (is_valid_guess guess).1 then replay lower secret stdin'
      else if bool_decide (guess = secret) then Some ([], Won, stdin')
      else
        '(misses, how, unread) ← replay lower secret stdin';
        Some (guess :: misses, how, unread)
  end.

(** The entry that the history keeps for a miss. *)
Definition recorded (secret guess : list N) : list N * gmap string Z :=
  (guess, score_dict (evaluate_guess_ref guess secret)).

(** The state of a game at its end, after the given misses. *)
Definition final_game (self : cli_game.game) (misses : list (list N))
    (how : ending) : cli_game.game :=
  {| cli_game.secret := cli_game.secret self;
     cli_game.attempts :=
       (cli_game.attempts self + Z.of_nat (length misses)
        + match how with Won => 1 | Quit => 0 end)%Z;
     cli_game.history :=
       cli_game.history self ++ (recorded (cli_game.secret self) <$> misses) |}.

(** The message that ends a game. *)
Definition final_message (self : cli_game.game) (how : ending)
    : cli_game.message :=
  match how with
  | Quit => cli_game.Farewell (cli_game.secret self)
  | Won => cli_game.Congratulations (cli_game.secret self) (cli_game.attempts self)
  end.

(* ===================================================================== *)
(** * Scoring                                                             *)
(* ===================================================================== *)

Lemma increment_bulls b c :
  increment "bulls" (score_dict (Score b c)) = Ok (score_dict (Score (b + 1) c)).
Proof.
  unfold increment, score_dict; simpl.
  rewrite lookup_insert_eq. by rewrite insert_insert_eq.
Qed.

Lemma increment_cows b c :
  increment "cows" (score_dict (Score b c)) = Ok (score_dict (Score b (c + 1))).
Proof.
  unfold increment, score_dict; simpl.
  rewrite lookup_insert_ne by done. rewrite lookup_singleton_eq.
  rewrite insert_insert_ne by done. by rewrite insert_singleton_eq.
Qed.

Lemma tally_cons v x vs :
  tally v (x :: vs) = ((if bool_decide (x = v) then 1 else 0) + tally v vs)%Z.
Proof.
  unfold tally. rewrite filter_cons.
  case_bool_decide; case_decide; simpl; try done; lia.
Qed.

(** One turn of the loop adds the verdict of the reference rule, as long
    as the position read in the secret exists. *)
Lemma evaluate_step_judge secret idx digit b c :
  (digit ∈ secret → idx < length secret) →
  evaluate_step secret idx digit (score_dict (Score b c)) =
    Ok (score_dict
          (Score (b + tally Bull [judge secret idx digit])
                 (c + tally Cow [judge secret idx digit]))).
Proof.
  intros Hidx. unfold evaluate_step, contains, judge.
  destruct (decide (digit ∈ secret)) as [Hin|Hin].
  - rewrite bool_decide_eq_true_2 by done.
    rewrite (bool_decide_eq_false_2 (digit ∉ secret)) by tauto.
    destruct (lookup_lt_is_Some_2 secret idx (Hidx Hin)) as [x Hx].
    unfold getitem. rewrite Hx. simpl.
    destruct (decide (x = digit)) as [->|Hne].
    + rewrite !bool_decide_eq_true_2 by done.
      change (tally Bull [Bull]) with 1%Z. change (tally Cow [Bull]) with 0%Z.
      by rewrite increment_bulls, Z.add_0_r.
    + rewrite !bool_decide_eq_false_2 by congruence.
      change (tally Bull [Cow]) with 0%Z. change (tally Cow [Cow]) with 1%Z.
      by rewrite increment_cows, Z.add_0_r.
  - rewrite bool_decide_eq_false_2 by done.
    rewrite (bool_decide_eq_true_2 (digit ∉ secret)) by done.
    change (tally Bull [Miss]) with 0%Z. change (tally Cow [Miss]) with 0%Z.
    by rewrite !Z.add_0_r.
Qed.

(** The loop computes the reference score, as long as no character of the
    guess that occurs in the secret stands at a position past the
    secret's end. *)
Lemma evaluate_loop_ref secret guess : ∀ idx b c,
  (∀ i g, guess !! i = Some g → g ∈ secret → idx + i < length secret) →
  evaluate_loop secret idx guess (score_dict (Score b c)) =
    Ok (score_dict
          (Score (b + tally Bull (imap (λ i, judge secret (idx + i)) guess))
                 (c + tally Cow (imap (λ i, judge secret (idx + i)) guess)))).
Proof.
  induction guess as [|digit guess IH]; intros idx b c Hidx.
  - simpl. change (tally _ []) with 0%Z. by rewrite !Z.add_0_r.
  - cbn [evaluate_loop imap].
    rewrite evaluate_step_judge.
    2:{ intros Hin. specialize (Hidx 0 digit eq_refl Hin). lia. }
    cbn [mbind outcome_bind]. rewrite IH.
    2:{ intros i g Hi Hin. specialize (Hidx (S i) g Hi Hin). lia. }
    rewrite !(tally_cons _ (judge secret (idx + 0) digit)).
    rewrite Nat.add_0_r.
    rewrite !(tally_cons _ _ []). change (tally _ []) with 0%Z.
    assert (Hext : imap (λ i, judge secret (S idx + i)) guess =
                   imap ((λ i, judge secret (idx + i)) ∘ S) guess).
    { apply imap_ext. intros i g _. simpl. f_equal. lia. }
    rewrite Hext. do 3 f_equal; lia.
Qed.

Lemma evaluate_guess_ref_total guess secret :
  (∀ i g, guess !! i = Some g → g ∈ secret → i < length secret) →
  evaluate_guess guess secret = Ok (score_dict (evaluate_guess_ref guess secret)).
Proof.
  intros Hidx. unfold evaluate_guess.
  change ({[ "bulls" := 0%Z; "cows" := 0%Z ]} : gmap string Z)
    with (score_dict (Score 0 0)).
  rewrite evaluate_loop_ref by (intros; simpl; eauto).
  by unfold evaluate_guess_ref.
Qed.

Lemma evaluate_guess_ref_le guess secret :
  length guess ≤ length secret →
  evaluate_guess guess secret = Ok (score_dict (evaluate_guess_ref guess secret)).
Proof.
  intros Hlen. apply evaluate_guess_ref_total.
  intros i g Hi _. apply lookup_lt_Some in Hi. lia.
Qed.

Lemma tally_nonneg v vs : (0 ≤ tally v vs)%Z.
Proof. unfold tally. lia. Qed.

Lemma tally_total vs :
  (tally Bull vs + tally Cow vs + tally Miss vs)%Z = Z.of_nat (length vs).
Proof.
  induction vs as [|x vs IH]; [done|].
  rewrite !tally_cons. cbn [length]. destruct x; simpl; lia.
Qed.

Lemma tally_zero v vs : tally v vs = 0%Z → v ∉ vs.
Proof.
  induction vs as [|x vs IH]; [intros _; apply not_elem_of_nil|].
  rewrite tally_cons. pose proof (tally_nonneg v vs).
  case_bool_decide as Hx; [lia|].
  intros Hz Hin. apply elem_of_cons in Hin as [->|Hin]; [done|].
  apply IH; [lia|done].
Qed.

Lemma tally_none v vs : v ∉ vs → tally v vs = 0%Z.
Proof.
  induction vs as [|x vs IH]; [done|].
  rewrite not_elem_of_cons. intros [Hne Hnin].
  rewrite tally_cons, IH by done. by rewrite bool_decide_eq_false_2.
Qed.

Lemma judge_Miss secret i g : judge secret i g = Miss ↔ g ∉ secret.
Proof.
  unfold judge. repeat case_bool_decide; split; try done; tauto.
Qed.

Lemma judge_Bull secret i g : judge secret i g = Bull ↔ secret !! i = Some g.
Proof.
  unfold judge. repeat case_bool_decide; split; try done.
  intros Hi. exfalso. apply list_elem_of_lookup_2 in Hi. tauto.
Qed.

Lemma verdicts_lookup secret guess i :
  imap (judge secret) guess !! i = judge secret i <$> guess !! i.
Proof. apply list_lookup_imap. Qed.

(** The reference score counts every position of the guess at most once. *)
Lemma evaluate_guess_ref_bound guess secret :
  let s := evaluate_guess_ref guess secret in
  (0 ≤ bulls s ∧ 0 ≤ cows s ∧ bulls s + cows s ≤ Z.of_nat (length guess))%Z.
Proof.
  simpl. pose proof (tally_total (imap (judge secret) guess)) as Ht.
  rewrite length_imap in Ht.
  pose proof (tally_nonneg Bull (imap (judge secret) guess)).
  pose proof (tally_nonneg Cow (imap (judge secret) guess)).
  pose proof (tally_nonneg Miss (imap (judge secret) guess)). lia.
Qed.

(** When the counts add up to the length of the guess, no position was a
    miss: every character of the guess occurs in the secret. *)
Lemma evaluate_guess_ref_full guess secret :
  let s := evaluate_guess_ref guess secret in
  (bulls s + cows s)%Z = Z.of_nat (length guess) →
  ∀ d, d ∈ guess → d ∈ secret.
Proof.
  simpl. intros Hsum d Hd.
  pose proof (tally_total (imap (judge secret) guess)) as Ht.
  rewrite length_imap in Ht.
  assert (Hmiss : Miss ∉ imap (judge secret) guess) by (apply tally_zero; lia).
  apply list_elem_of_lookup_1 in Hd as [i Hi].
  destruct (decide (d ∈ secret)) as [|Hnin]; [done|].
  exfalso. apply Hmiss. apply list_elem_of_lookup_2 with i.
  rewrite verdicts_lookup, Hi. simpl. f_equal. by apply judge_Miss.
Qed.

(** A guess without any character of the secret scores nothing. *)
Lemma evaluate_guess_ref_disjoint guess secret :
  (∀ d, d ∈ guess → d ∉ secret) →
  evaluate_guess_ref guess secret = Score 0 0.
Proof.
  intros Hdis.
  assert (Hall : ∀ v, v ∈ imap (judge secret) guess → v = Miss).
  { intros v Hv. apply list_elem_of_lookup_1 in Hv as [i Hi].
    rewrite verdicts_lookup in Hi.
    destruct (guess !! i) as [g|] eqn:Hg; [|done].
    simpl in Hi. injection Hi as <-. apply judge_Miss, Hdis.
    by apply list_elem_of_lookup_2 with i. }
  unfold evaluate_guess_ref. cbn zeta.
  rewrite !tally_none; [done| |]; intros Hv; by apply Hall in Hv.
Qed.

(** A string scored against itself: every position is a bull. *)
Lemma evaluate_guess_ref_self s :
  evaluate_guess_ref s s = Score (Z.of_nat (length s)) 0.
Proof.
  assert (Hall : ∀ v, v ∈ imap (judge s) s → v = Bull).
  { intros v Hv. apply list_elem_of_lookup_1 in Hv as [i Hi].
    rewrite verdicts_lookup in Hi.
    destruct (s !! i) as [g|] eqn:Hg; [|done].
    simpl in Hi. injection Hi as <-. by apply judge_Bull. }
  pose proof (tally_total (imap (judge s) s)) as Ht.
  rewrite length_imap in Ht.
  unfold evaluate_guess_ref. cbn zeta.
  rewrite (tally_none Cow) in * by (intros Hv; by apply Hall in Hv).
  rewrite (tally_none Miss) in Ht by (intros Hv; by apply Hall in Hv).
  f_equal. lia.
Qed.

(* ===================================================================== *)
(** * Validation                                                          *)
(* ===================================================================== *)

Lemma len_set_le (s : list N) : len_set s ≤ length s.
Proof.
  unfold len_set. induction s as [|c s IH]; [done|].
  rewrite list_to_set_cons, size_union_alt, size_singleton. simpl.
  assert (size (list_to_set s ∖ {[c]} : gset N) ≤ size (list_to_set s : gset N))
    by (apply subseteq_size; set_solver).
  lia.
Qed.

(** [len(set(s)) == len(s)] exactly when no character repeats. *)
Lemma len_set_NoDup (s : list N) : len_set s = length s ↔ NoDup s.
Proof.
  split; [|apply size_list_to_set].
  induction s as [|c s IH]; [constructor|].
  unfold len_set. rewrite list_to_set_cons. simpl. intros Hsz.
  destruct (decide (c ∈ s)) as [Hin|Hnin].
  - exfalso. pose proof (len_set_le s) as Hle. unfold len_set in Hle.
    replace ({[c]} ∪ list_to_set s : gset N) with (list_to_set s : gset N)
      in Hsz by set_solver. lia.
  - constructor; [done|]. apply IH.
    rewrite size_union, size_singleton in Hsz by set_solver.
    unfold len_set. lia.
Qed.

Lemma forallb_Forall {A} (f : A → bool) (l : list A) :
  forallb f l = true ↔ Forall (λ x, f x = true) l.
Proof.
  induction l as [|x l IH]; simpl; [by split|].
  rewrite andb_true_iff, Forall_cons, IH. done.
Qed.

Lemma isdigit_Forall (s : list N) :
  isdigit s = true ↔ s ≠ [] ∧ Forall (λ c, isdigit_char c = true) s.
Proof.
  destruct s as [|c s]; [split; [done|tauto]|].
  unfold isdigit. rewrite forallb_Forall. split; [done|tauto].
Qed.

(** What the validator accepts, in the terms of the runtime. *)
Lemma is_valid_guess_true (s : list N) :
  (is_valid_guess s).1 = true ↔
  length s = 4 ∧ Forall (λ c, isdigit_char c = true) s ∧ NoDup s.
Proof.
  unfold is_valid_guess.
  destruct (isdigit s) eqn:Hd; simpl.
  - apply isdigit_Forall in Hd as [_ Hd].
    case_bool_decide as Hlen; simpl; [|split; [done|tauto]].
    case_bool_decide as Hset; simpl.
    + split; [|done]. intros _. split_and!; try done.
      apply len_set_NoDup. congruence.
    + split; [done|]. intros (_ & _ & Hnd). apply len_set_NoDup in Hnd.
      congruence.
  - split; [done|]. intros (Hlen & Hall & _).
    assert (isdigit s = true); [|congruence].
    apply isdigit_Forall. split; [|done]. intros ->. done.
Qed.

Lemma is_valid_guess_accepts (s : list N) :
  (is_valid_guess s).1 = true ↔ is_valid_guess s = (true, ""%string).
Proof.
  unfold is_valid_guess. repeat case_match; simpl; split; congruence.
Qed.

Lemma is_decimal_isdigit c : is_decimal c → isdigit_char c = true.
Proof.
  unfold is_decimal, isdigit_char, in_ranges, digit_ranges. intros [Hlo Hhi].
  cbn [existsb fst snd]. apply orb_true_iff. left.
  apply andb_true_iff. split; by apply N.leb_le.
Qed.

(** Well-formed strings pass the validator. *)
Lemma well_formed_valid s : well_formed s → is_valid_guess s = (true, ""%string).
Proof.
  intros (Hlen & Hdec & Hnd). apply is_valid_guess_accepts, is_valid_guess_true.
  split_and!; try done. eapply Forall_impl; [done|]. apply is_decimal_isdigit.
Qed.

(** On ASCII input the digits of [str.isdigit] are the ten decimal
    digits, and the validator accepts exactly the well-formed strings. *)
Lemma isdigit_char_ascii c : (c < 128)%N → isdigit_char c = true → is_decimal c.
Proof.
  unfold isdigit_char, in_ranges, is_decimal. intros Hc Hd.
  apply existsb_exists in Hd as ([lo hi] & Hin & Hr).
  apply andb_true_iff in Hr as [Hlo Hhi].
  apply N.leb_le in Hlo, Hhi. simpl in Hlo, Hhi.
  unfold digit_ranges in Hin. simpl in Hin.
  repeat (destruct Hin as [Hin|Hin]; [injection Hin as <- <-; lia|]).
  done.
Qed.

Lemma is_valid_guess_ascii (s : list N) :
  Forall (λ c, (c < 128)%N) s →
  (is_valid_guess s).1 = true ↔ well_formed s.
Proof.
  intros Hascii. split.
  - intros (Hlen & Hall & Hnd)%is_valid_guess_true. split_and!; try done.
    apply Forall_forall. intros c Hc.
    rewrite Forall_forall in Hascii, Hall.
    apply isdigit_char_ascii; auto.
  - intros Hwf. by rewrite well_formed_valid.
Qed.

(* ===================================================================== *)
(** * The properties of the specification: scoring and validation         *)
(* ===================================================================== *)

(** C1. [evaluate_guess] agrees with the reference rule of the
    specification whenever the guess is no longer than the secret (in
    particular on two validated strings): position by position, a
    character absent from the secret counts for nothing, a character equal
    to the secret's at the same position is a bull, any other is a cow.
    The three literal scenarios hold, and a guess that shares no character
    with the secret scores 0 bulls and 0 cows. *)
Theorem evaluate_guess_reference :
  (∀ guess secret : list N,
     length guess ≤ length secret →
     evaluate_guess guess secret =
       Ok (score_dict (evaluate_guess_ref guess secret)))
  ∧ evaluate_guess (lit "1234") (lit "1243") = Ok (score_dict (Score 2 2))
  ∧ evaluate_guess (lit "5678") (lit "1234") = Ok (score_dict (Score 0 0))
  ∧ evaluate_guess (lit "7814") (lit "7846") = Ok (score_dict (Score 2 1))
  ∧ (∀ guess secret : list N,
       Forall (λ d, d ∉ secret) guess →
       evaluate_guess guess secret = Ok (score_dict (Score 0 0))).
Proof.
  split_and!.
  - intros guess secret Hlen. apply evaluate_guess_ref_total.
    intros i g Hi _. apply lookup_lt_Some in Hi. lia.
  - vm_compute. reflexivity.
  - vm_compute. reflexivity.
  - vm_compute. reflexivity.
  - intros guess secret Hdis. rewrite Forall_forall in Hdis.
    rewrite evaluate_guess_ref_total.
    + by rewrite evaluate_guess_ref_disjoint.
    + intros i g Hi Hin. exfalso. eapply Hdis; [|done].
      by apply list_elem_of_lookup_2 with i.
Qed.

Lemma evaluate_guess_reference_witness :
  evaluate_guess (lit "1234") (lit "1243") =
    Ok (score_dict (evaluate_guess_ref (lit "1234") (lit "1243")))
  ∧ evaluate_guess (lit "56") (lit "1234") = Ok (score_dict (Score 0 0)).
Proof.
  split.
  - apply (proj1 evaluate_guess_reference). vm_compute. lia.
  - apply (proj2 (proj2 (proj2 (proj2 evaluate_guess_reference)))).
    apply (bool_decide_unpack _). vm_compute. exact I.
Defined.

(** C3. For a guess and a secret that both pass validation, the call
    returns a score with [0 <= bulls], [0 <= cows] and
    [bulls + cows <= 4]; and [bulls + cows = 4] only if every character
    of the guess occurs in the secret. *)
Theorem evaluate_guess_score_bound (guess secret : list N) :
  is_valid_guess guess = (true, ""%string) →
  is_valid_guess secret = (true, ""%string) →
  ∃ b c : Z,
    evaluate_guess guess secret = Ok (score_dict (Score b c))
    ∧ (0 ≤ b)%Z ∧ (0 ≤ c)%Z ∧ (b + c ≤ 4)%Z
    ∧ ((b + c = 4)%Z → ∀ d, d ∈ guess → d ∈ secret).
Proof.
  intros (Hg & _ & _)%is_valid_guess_accepts%is_valid_guess_true.
  intros (Hs & _ & _)%is_valid_guess_accepts%is_valid_guess_true.
  exists (bulls (evaluate_guess_ref guess secret)),
         (cows (evaluate_guess_ref guess secret)).
  pose proof (evaluate_guess_ref_bound guess secret) as Hb.
  pose proof (evaluate_guess_ref_full guess secret) as Hf.
  cbn zeta in Hb, Hf. rewrite Hg in Hb, Hf.
  split_and!; try lia; [|done].
  rewrite evaluate_guess_ref_le by lia.
  by destruct (evaluate_guess_ref guess secret).
Qed.

Lemma evaluate_guess_score_bound_witness :
  ∃ b c : Z,
    evaluate_guess (lit "1234") (lit "1243") = Ok (score_dict (Score b c))
    ∧ (0 ≤ b)%Z ∧ (0 ≤ c)%Z ∧ (b + c ≤ 4)%Z
    ∧ ((b + c = 4)%Z → ∀ d, d ∈ lit "1234" → d ∈ lit "1243").
Proof.
  apply (evaluate_guess_score_bound (lit "1234") (lit "1243")); reflexivity.
Defined.

(** C6. A validated secret scored against itself gives 4 bulls and no
    cow. *)
Theorem evaluate_guess_self (secret : list N) :
  is_valid_guess secret = (true, ""%string) →
  evaluate_guess secret secret = Ok (score_dict (Score 4 0)).
Proof.
  intros (Hs & _ & _)%is_valid_guess_accepts%is_valid_guess_true.
  rewrite evaluate_guess_ref_total.
  - by rewrite evaluate_guess_ref_self, Hs.
  - intros i g Hi _. by apply lookup_lt_Some in Hi.
Qed.

Lemma evaluate_guess_self_witness :
  evaluate_guess (lit "9305") (lit "9305") = Ok (score_dict (Score 4 0)).
Proof.
  apply (evaluate_guess_self (lit "9305")). reflexivity.
Defined.

(** C7. On two strings of the same length, whatever their characters,
    [evaluate_guess] returns (the loop is a structural recursion on the
    guess, and no exception is raised): every position of the guess is a
    position of the secret, so that [secret[idx]] never raises. *)
Theorem evaluate_guess_no_crash (guess secret : list N) :
  length guess = length secret →
  returns (evaluate_guess guess secret)
  ∧ ∀ idx digit, guess !! idx = Some digit → returns (getitem secret idx).
Proof.
  intros Hlen. split.
  - eexists. apply evaluate_guess_ref_le. lia.
  - intros idx digit Hi. apply lookup_lt_Some in Hi.
    destruct (lookup_lt_is_Some_2 secret idx) as [x Hx]; [lia|].
    exists x. unfold getitem. by rewrite Hx.
Qed.

Lemma evaluate_guess_no_crash_witness :
  returns (evaluate_guess (lit "aa1") (lit "1a1"))
  ∧ ∀ idx digit, lit "aa1" !! idx = Some digit → returns (getitem (lit "1a1") idx).
Proof.
  apply (evaluate_guess_no_crash (lit "aa1") (lit "1a1")). reflexivity.
Defined.

(** C2. The validator accepts [12³4], a string of length 4 whose
    characters are pairwise distinct but not all among the decimal digits
    0-9: acceptance does not imply well-formedness.  (The converse holds,
    [well_formed_valid], and so does the equivalence on ASCII input,
    [is_valid_guess_ascii].) *)
Theorem is_valid_guess_superscript :
  is_valid_guess guess_superscript = (true, ""%string)
  ∧ length guess_superscript = 4
  ∧ NoDup guess_superscript
  ∧ ¬ Forall is_decimal guess_superscript
  ∧ ¬ well_formed guess_superscript.
Proof.
  assert (Hnd : ¬ Forall is_decimal guess_superscript).
  { intros H. rewrite Forall_forall in H.
    assert (Hin : 179%N ∈ guess_superscript) by (vm_compute; set_solver).
    apply H in Hin. unfold is_decimal in Hin. lia. }
  split_and!; try done.
  - apply (bool_decide_unpack _). by vm_compute.
  - intros (_ & H & _). by apply Hnd.
Qed.

(** C4, as the specification words it, fails: the reason that the code
    gives for [12a4] is not the specification's. *)
Lemma is_valid_guess_reason_differs :
  is_valid_guess (lit "12a4") ≠ (false, spec_reason_digits)
  ∧ is_valid_guess (lit "123") ≠ (false, spec_reason_length)
  ∧ is_valid_guess (lit "1123") ≠ (false, spec_reason_unique).
Proof. split_and!; by vm_compute. Qed.

(** C4, amended. [is_valid_guess] checks in order, returning at the first
    failure: [str.isdigit] (a non-empty string of digit characters), then
    the length 4, then the distinctness of the characters.  The reasons
    are those of the code: "Input must contain only digits", "Input must
    be exactly 4 digits long", "All digits must be unique", and the empty
    string on success; the four literal calls return accordingly. *)
Theorem is_valid_guess_order :
  (∀ s : list N,
     isdigit s = false →
     is_valid_guess s = (false, "Input must contain only digits"%string))
  ∧ (∀ s : list N,
       isdigit s = true → length s ≠ 4 →
       is_valid_guess s = (false, "Input must be exactly 4 digits long"%string))
  ∧ (∀ s : list N,
       isdigit s = true → length s = 4 → ¬ NoDup s →
       is_valid_guess s = (false, "All digits must be unique"%string))
  ∧ (∀ s : list N,
       isdigit s = true → length s = 4 → NoDup s →
       is_valid_guess s = (true, ""%string))
  ∧ is_valid_guess (lit "12a4") = (false, "Input must contain only digits"%string)
  ∧ is_valid_guess (lit "123") = (false, "Input must be exactly 4 digits long"%string)
  ∧ is_valid_guess (lit "1123") = (false, "All digits must be unique"%string)
  ∧ is_valid_guess (lit "1234") = (true, ""%string).
Proof.
  split_and!; [| | | |reflexivity..].
  - intros s Hd. unfold is_valid_guess. by rewrite Hd.
  - intros s Hd Hlen. unfold is_valid_guess. rewrite Hd. simpl.
    by rewrite bool_decide_eq_false_2.
  - intros s Hd Hlen Hnd. unfold is_valid_guess. rewrite Hd. simpl.
    rewrite bool_decide_eq_true_2 by done. simpl.
    rewrite bool_decide_eq_false_2; [done|].
    intros Hset. apply Hnd, len_set_NoDup. congruence.
  - intros s Hd Hlen Hnd. unfold is_valid_guess. rewrite Hd. simpl.
    rewrite bool_decide_eq_true_2 by done. simpl.
    rewrite bool_decide_eq_true_2; [done|].
    apply len_set_NoDup in Hnd. congruence.
Qed.

Lemma is_valid_guess_order_witness :
  is_valid_guess (lit "1x") = (false, "Input must contain only digits"%string)
  ∧ is_valid_guess (lit "11223") =
      (false, "Input must be exactly 4 digits long"%string)
  ∧ is_valid_guess (lit "4554") = (false, "All digits must be unique"%string)
  ∧ is_valid_guess (lit "4567") = (true, ""%string).
Proof.
  destruct is_valid_guess_order as (H1 & H2 & H3 & H4 & _).
  split_and!.
  - apply H1. reflexivity.
  - apply H2; [reflexivity|]. simpl. lia.
  - apply H3; [reflexivity|reflexivity|].
    apply (bool_decide_unpack _). vm_compute. exact I.
  - apply H4; [reflexivity|reflexivity|].
    apply (bool_decide_unpack _). vm_compute. exact I.
Defined.

(** C10. The empty string is rejected at the first check, with the reason
    "Input must contain only digits": [str.isdigit] is false on it,
    although each of its characters (there is none) is a digit, and the
    length check, which it would fail too, is not reached. *)
Theorem is_valid_guess_empty :
  is_valid_guess (lit "") = (false, "Input must contain only digits"%string)
  ∧ isdigit (lit "") = false
  ∧ Forall (λ c, isdigit_char c = true) (lit "")
  ∧ length (lit "") ≠ 4.
Proof. split_and!; [reflexivity|reflexivity|constructor|discriminate]. Qed.

(* ===================================================================== *)
(** * Persistence                                                         *)
(* ===================================================================== *)

Lemma load_secret_number_present fs filepath content :
  fs !! filepath = Some content →
  load_secret_number fs filepath = Ok (strip content).
Proof. intros Hf. unfold load_secret_number, read_text. by rewrite Hf. Qed.

(** C8. When no file stands at [filepath], [load_secret_number] raises
    [FileNotFoundError]: the exception of [open] reaches the caller, and
    the call returns no value, neither a default nor a fresh secret. *)
Theorem load_secret_number_missing (fs : gmap string (list N)) (filepath : string) :
  fs !! filepath = None →
  load_secret_number fs filepath = Raise FileNotFoundError
  ∧ ¬ returns (load_secret_number fs filepath).
Proof.
  intros Hf. unfold load_secret_number, read_text. rewrite Hf.
  split; [done|]. by intros [s Hs].
Qed.

Lemma load_secret_number_missing_witness :
  load_secret_number ∅ default_filepath = Raise FileNotFoundError
  ∧ ¬ returns (load_secret_number ∅ default_filepath).
Proof.
  apply (load_secret_number_missing ∅ default_filepath). reflexivity.
Defined.

(* ===================================================================== *)
(** * Sampling                                                            *)
(* ===================================================================== *)

Section sampling.
Context {G : Type} `{!RandomSource G} {A : Type}.
Implicit Types (pool result population : list A) (g : G).

(** Moving the last element of a list into the place of the [j]-th swaps
    the two, up to the order of the elements. *)
Lemma insert_swap_last (l : list A) : ∀ j x y,
  l !! j = Some x → <[j := y]> l ++ [x] ≡ₚ l ++ [y].
Proof.
  induction l as [|a l IH]; intros j x y Hj; [done|].
  destruct j as [|j]; simpl in *.
  - injection Hj as ->. rewrite <- !Permutation_cons_append. apply perm_swap.
  - by rewrite (IH j x y).
Qed.

(** The invariant of the pool loop: the first [n - i] slots of the pool
    and the elements selected so far make up the population.  Every draw
    stays inside the pool, so that the loop raises nothing. *)
Lemma sample_pool_invariant population n : ∀ todo i pool result g,
  length pool = n → i + todo ≤ n →
  take (n - i) pool ++ result ≡ₚ population →
  ∃ rest result' g',
    sample_pool todo i n pool result g = Ok (result', g')
    ∧ length result' = length result + todo
    ∧ rest ++ result' ≡ₚ population.
Proof.
  induction todo as [|todo IH]; intros i pool result g Hlen Hi Hperm.
  - exists (take (n - i) pool), result, g. simpl. split_and!; [done|lia|done].
  - cbn [sample_pool].
    pose proof (randbelow_lt (n - i) g ltac:(lia)) as Hj.
    destruct (randbelow (n - i) g) as [j g']. simpl in Hj.
    destruct (lookup_lt_is_Some_2 pool j ltac:(lia)) as [x Hx].
    destruct (lookup_lt_is_Some_2 pool (n - i - 1) ltac:(lia)) as [y Hy].
    unfold getitem. rewrite Hx, Hy. cbn [mbind outcome_bind].
    destruct (IH (S i) (<[j := y]> pool) (result ++ [x]) g')
      as (rest & result' & g'' & Hrun & Hlen' & Hperm').
    + by rewrite length_insert.
    + lia.
    + rewrite <- Hperm.
      replace (n - i) with (S (n - S i)) by lia.
      replace (n - i - 1) with (n - S i) in Hy by lia.
      rewrite (take_S_r _ _ _ Hy).
      destruct (decide (j = n - S i)) as [->|Hne].
      * rewrite take_insert_ge by lia.
        assert (x = y) as -> by congruence.
        rewrite <- !(assoc_L (++)). apply Permutation_app_head, Permutation_app_comm.
      * rewrite take_insert_lt by lia.
        trans ((<[j := y]> (take (n - S i) pool) ++ [x]) ++ result).
        { rewrite <- (assoc_L (++)).
          apply Permutation_app_head, Permutation_app_comm. }
        apply Permutation_app_tail, insert_swap_last.
        rewrite lookup_take_lt by lia. done.
    + exists rest, result', g''. rewrite length_app in Hlen'. simpl in Hlen'.
      split_and!; [done|lia|done].
Qed.

(** [random.sample] of at most 5 elements from a population of at most
    21, without repetition: it returns [k] elements of the population,
    pairwise distinct. *)
Lemma sample_spec population k g :
  NoDup population → k ≤ length population → k ≤ 5 → length population ≤ 21 →
  ∃ result g',
    sample population k g = Ok (result, g')
    ∧ length result = k ∧ NoDup result ∧ result ⊆ population.
Proof.
  intros Hnd Hk H5 H21. unfold sample.
  rewrite bool_decide_eq_true_2 by done. simpl.
  rewrite bool_decide_eq_true_2 by done.
  destruct (sample_pool_invariant population (length population)
              k 0 population [] g)
    as (rest & result & g' & Hrun & Hlen & Hperm); [done|lia| |].
  { rewrite Nat.sub_0_r, take_ge by done. by rewrite app_nil_r. }
  exists result, g'. split_and!; [done|done| |].
  - rewrite <- Hperm in Hnd. by apply NoDup_app in Hnd as (_ & _ & ?).
  - intros x Hx. rewrite <- Hperm. apply elem_of_app. by right.
Qed.

End sampling.

(* ===================================================================== *)
(** * The secret generator                                                *)
(* ===================================================================== *)

Lemma str_of_int_digit d : d < 10 → str_of_int d = [digit_char d].
Proof.
  intros Hd. do 10 (destruct d as [|d]; [reflexivity|]). lia.
Qed.

Lemma join_digits (digits : list nat) :
  Forall (λ d, d < 10) digits →
  join (str_of_int <$> digits) = digit_char <$> digits.
Proof.
  induction 1 as [|d digits Hd _ IH]; [done|].
  unfold join in *. rewrite !fmap_cons. cbn [concat].
  by rewrite IH, str_of_int_digit.
Qed.

Lemma digit_char_decimal d : d < 10 → is_decimal (digit_char d).
Proof. unfold is_decimal, digit_char. lia. Qed.

(** C5. [generate_secret_number] is total: whatever the state of the
    random source, it returns, raising nothing; and the string returned
    has length 4, consists of decimal digits, and repeats none. *)
Theorem generate_secret_number_well_formed {G} `{!RandomSource G} (g : G) :
  ∃ secret g',
    generate_secret_number g = Ok (secret, g')
    ∧ length secret = 4
    ∧ Forall is_decimal secret
    ∧ NoDup secret.
Proof.
  destruct (sample_spec (range 10) 4 g)
    as (digits & g' & Hrun & Hlen & Hnd & Hsub);
    [apply NoDup_seq|simpl; lia|lia|simpl; lia|].
  assert (Hlt : Forall (λ d, d < 10) digits).
  { apply Forall_forall. intros d Hd. apply Hsub in Hd.
    unfold range in Hd. apply elem_of_seq in Hd. lia. }
  exists (digit_char <$> digits), g'.
  unfold generate_secret_number. rewrite Hrun. cbn [mbind outcome_bind].
  rewrite join_digits by done. split_and!.
  - done.
  - by rewrite length_fmap.
  - apply Forall_fmap. eapply Forall_impl; [done|].
    intros d Hd. by apply digit_char_decimal.
  - apply (NoDup_fmap_2 digit_char). exact Hnd.
Qed.

Lemma generate_secret_number_well_formed_witness :
  ∃ secret g',
    generate_secret_number [3; 3; 3; 3] = Ok (secret, g')
    ∧ length secret = 4
    ∧ Forall is_decimal secret
    ∧ NoDup secret.
Proof.
  apply (generate_secret_number_well_formed (G := list nat) [3; 3; 3; 3]).
Defined.

Example generate_secret_number_3333 :
  generate_secret_number [3; 3; 3; 3] = Ok (lit "3987", []).
Proof. reflexivity. Qed.

(* ===================================================================== *)
(** * The distribution of the secret                                      *)
(* ===================================================================== *)

Lemma check_forward_ok : check_forward = true.
Proof. vm_compute. reflexivity. Qed.

Lemma check_backward_ok : check_backward = true.
Proof. vm_compute. reflexivity. Qed.

Lemma length_draw_space : length draw_space = 5040.
Proof. vm_compute. reflexivity. Qed.

Lemma elem_of_tuples bounds : ∀ draws,
  draws ∈ tuples bounds ↔ Forall2 lt draws bounds.
Proof.
  induction bounds as [|b bounds IH]; intros draws.
  - simpl. rewrite list_elem_of_singleton. split; [by intros ->|].
    by intros ->%Forall2_nil_inv_r.
  - cbn [tuples]. rewrite list_elem_of_bind. split.
    + intros (j & (tl & -> & Htl)%list_elem_of_fmap & Hj%elem_of_seq).
      constructor; [lia|]. by apply IH.
    + intros (j & tl & Hj & Htl & ->)%Forall2_cons_inv_r.
      exists j. split; [|apply elem_of_seq; lia].
      apply list_elem_of_fmap. exists tl. split; [done|]. by apply IH.
Qed.

Lemma NoDup_tuples bounds : NoDup (tuples bounds).
Proof.
  induction bounds as [|b bounds IH]; [apply NoDup_singleton|].
  cbn [tuples]. apply NoDup_bind; [| |apply NoDup_seq].
  - intros j1 j2 draws _ _ (tl1 & -> & _)%list_elem_of_fmap
      (tl2 & Heq & _)%list_elem_of_fmap. congruence.
  - intros j _. apply (NoDup_fmap_2 _), IH.
Qed.

Lemma filter_none {A} (P : A → Prop) `{!∀ x, Decision (P x)} (l : list A) :
  (∀ y, y ∈ l → ¬ P y) → filter P l = [].
Proof.
  intros Hno. destruct (filter P l) as [|y l'] eqn:Hf; [done|].
  assert (Hy : y ∈ filter P l) by (rewrite Hf; left).
  apply list_elem_of_filter in Hy as [HPy Hy]. by apply Hno in Hy.
Qed.

(** In a list without repetition, a property that singles out one element
    of the list is met exactly once. *)
Lemma length_filter_unique {A} (P : A → Prop) `{!∀ x, Decision (P x)}
    (l : list A) (x : A) :
  NoDup l → x ∈ l → (∀ y, y ∈ l → P y ↔ y = x) →
  length (filter P l) = 1.
Proof.
  induction l as [|a l IH]; intros Hnd Hx HP; [by apply elem_of_nil in Hx|].
  apply NoDup_cons in Hnd as [Ha Hnd].
  destruct (decide (P a)) as [HPa|HPa].
  - rewrite filter_cons_True by done.
    apply HP in HPa as ->; [|left].
    assert (Hnone : filter P l = []); [|by rewrite Hnone].
    apply filter_none. intros y Hy HPy.
    apply HP in HPy; [|by right]. congruence.
  - rewrite filter_cons_False by done.
    apply elem_of_cons in Hx as [->|Hx].
    { exfalso. apply HPa, HP; [left|done]. }
    apply IH; [done|done|]. intros y Hy. apply HP. by right.
Qed.

Lemma is_decimal_chars c : is_decimal c → c ∈ decimal_chars.
Proof.
  intros [Hlo Hhi]. unfold decimal_chars.
  apply list_elem_of_fmap. exists (N.to_nat (c - 48)). split.
  - unfold digit_char. lia.
  - apply elem_of_seq. lia.
Qed.

Lemma well_formed_candidate s : well_formed s → s ∈ candidates.
Proof.
  intros (Hlen & Hdec & _).
  destruct s as [|a [|b [|c [|d [|e s]]]]]; try done.
  apply Forall_cons in Hdec as [Ha Hdec].
  apply Forall_cons in Hdec as [Hb Hdec].
  apply Forall_cons in Hdec as [Hc Hdec].
  apply Forall_cons in Hdec as [Hd _].
  unfold candidates.
  apply list_elem_of_bind. exists a. split; [|by apply is_decimal_chars].
  apply list_elem_of_bind. exists b. split; [|by apply is_decimal_chars].
  apply list_elem_of_bind. exists c. split; [|by apply is_decimal_chars].
  apply list_elem_of_bind. exists d. split; [|by apply is_decimal_chars].
  apply list_elem_of_singleton. done.
Qed.

(** Every sequence of draws of the space leads to a well-formed secret,
    and to no other sequence's. *)
Lemma secret_of_draws_forward draws :
  draws ∈ draw_space →
  ∃ secret,
    secret_of_draws draws = Some secret
    ∧ well_formed secret
    ∧ draws_of_secret secret = Some draws.
Proof.
  intros Hin. pose proof check_forward_ok as Hck. unfold check_forward in Hck.
  rewrite forallb_forall in Hck. apply list_elem_of_In, Hck in Hin.
  destruct (secret_of_draws draws) as [secret|]; [|done].
  apply andb_true_iff in Hin as [Hwf Hinv].
  apply bool_decide_eq_true in Hwf, Hinv. by exists secret.
Qed.

(** Every well-formed secret is led to by a sequence of draws of the
    space. *)
Lemma secret_of_draws_backward secret :
  well_formed secret →
  ∃ draws,
    draws_of_secret secret = Some draws
    ∧ draws ∈ draw_space
    ∧ secret_of_draws draws = Some secret.
Proof.
  intros Hwf. pose proof check_backward_ok as Hck. unfold check_backward in Hck.
  rewrite forallb_forall in Hck.
  pose proof (well_formed_candidate secret Hwf) as Hin.
  apply list_elem_of_In, Hck in Hin.
  rewrite bool_decide_eq_true_2 in Hin by done.
  destruct (draws_of_secret secret) as [draws|]; [|done].
  apply andb_true_iff in Hin as [Hsp Hsec].
  apply bool_decide_eq_true in Hsp, Hsec.
  exists draws. split_and!; [done| |done]. by apply elem_of_tuples.
Qed.

Lemma ways_well_formed secret : well_formed secret → ways secret = 1.
Proof.
  intros (draws & Hinv & Hin & Hsec)%secret_of_draws_backward.
  unfold ways.
  apply (length_filter_unique _ _ draws); [apply NoDup_tuples|done|].
  intros draws' Hin'. split; [|by intros ->].
  intros Hsec'.
  destruct (secret_of_draws_forward draws' Hin') as (s' & Hs' & _ & Hinv').
  congruence.
Qed.

Lemma ways_ill_formed secret : ¬ well_formed secret → ways secret = 0.
Proof.
  intros Hwf. unfold ways.
  assert (Hnone : filter (λ draws, secret_of_draws draws = Some secret)
                    draw_space = []); [|by rewrite Hnone].
  apply filter_none. intros draws Hin Hsec.
  destruct (secret_of_draws_forward draws Hin) as (s' & Hs' & Hwf' & _).
  congruence.
Qed.

Section draws.
Context {G : Type} `{!RandomSource G}.

(** The pool loop depends on the random source through its draws only:
    replaying them from a script selects the same elements. *)
Lemma sample_pool_draws {A} todo : ∀ i n (pool result : list A) (g : G),
  i + todo ≤ n →
  sample_pool todo i n pool result g =
    '(selected, _) ← sample_pool todo i n pool result (draws_of todo i n g).1;
    Ok (selected, (draws_of todo i n g).2).
Proof.
  induction todo as [|todo IH]; intros i n pool result g Hi; [done|].
  cbn [sample_pool draws_of].
  pose proof (randbelow_lt (n - i) g ltac:(lia)) as Hj.
  destruct (randbelow (n - i) g) as [j g']. simpl in Hj.
  destruct (draws_of todo (S i) n g') as [js g''] eqn:Hjs.
  cbn [fst snd randbelow script_source script_randbelow].
  rewrite Nat.mod_small by done.
  destruct (getitem pool j) as [x|e]; [|done]. cbn [mbind outcome_bind].
  destruct (getitem pool (n - i - 1)) as [y|e]; [|done].
  cbn [mbind outcome_bind].
  rewrite (IH (S i) n (<[j := y]> pool) (result ++ [x]) g') by lia.
  by rewrite Hjs.
Qed.

Lemma draws_of_space (g : G) : (draws_of 4 0 10 g).1 ∈ draw_space.
Proof.
  apply elem_of_tuples. cbn [draws_of Nat.sub].
  pose proof (randbelow_lt 10 g ltac:(lia)) as H0.
  destruct (randbelow 10 g) as [j0 g0].
  pose proof (randbelow_lt 9 g0 ltac:(lia)) as H1.
  destruct (randbelow 9 g0) as [j1 g1].
  pose proof (randbelow_lt 8 g1 ltac:(lia)) as H2.
  destruct (randbelow 8 g1) as [j2 g2].
  pose proof (randbelow_lt 7 g2 ltac:(lia)) as H3.
  destruct (randbelow 7 g2) as [j3 g3].
  simpl in *. repeat (constructor; [lia|]). constructor.
Qed.

(** The secret that [generate_secret_number] returns is the one that its
    four draws lead to. *)
Lemma generate_secret_number_draws (g : G) :
  ∃ secret,
    secret_of_draws (draws_of 4 0 10 g).1 = Some secret
    ∧ generate_secret_number g = Ok (secret, (draws_of 4 0 10 g).2).
Proof.
  destruct (secret_of_draws_forward _ (draws_of_space g))
    as (secret & Hsec & _).
  exists secret. split; [done|].
  unfold secret_of_draws, generate_secret_number, sample in *.
  cbn [length range seq negb bool_decide decide_rel] in *.
  rewrite !bool_decide_eq_true_2 in * by (simpl; lia).
  cbn [negb] in *. rewrite sample_pool_draws by lia.
  destruct (sample_pool 4 0 _ _ _ (draws_of 4 0 10 g).1)
    as [[digits g']|e]; [|done].
  cbn [mbind outcome_bind] in *. congruence.
Qed.

(** Whatever the random source, [generate_secret_number] asks it for
    [randbelow(10)], [randbelow(9)], [randbelow(8)] and [randbelow(7)],
    in this order and each from the state that the draw before left, and
    returns the secret that these four draws lead to. *)
Lemma generate_secret_number_asks (g : G) :
  let '(j0, g0) := randbelow 10 g in
  let '(j1, g1) := randbelow 9 g0 in
  let '(j2, g2) := randbelow 8 g1 in
  let '(j3, g3) := randbelow 7 g2 in
  [j0; j1; j2; j3] ∈ draw_space
  ∧ ∃ secret,
      secret_of_draws [j0; j1; j2; j3] = Some secret
      ∧ generate_secret_number g = Ok (secret, g3).
Proof.
  pose proof (draws_of_space g) as Hspace.
  pose proof (generate_secret_number_draws g) as Hgen.
  cbn [draws_of Nat.sub] in Hspace, Hgen.
  destruct (randbelow 10 g) as [j0 g0].
  destruct (randbelow 9 g0) as [j1 g1].
  destruct (randbelow 8 g1) as [j2 g2].
  destruct (randbelow 7 g2) as [j3 g3].
  by split.
Qed.

End draws.

(** C9. [generate_secret_number] is uniform.  On any random source it
    asks for four draws, [randbelow(10)], [randbelow(9)], [randbelow(8)]
    and [randbelow(7)], and returns the secret that they lead to.  The
    four draws range over the 10 * 9 * 8 * 7 = 5040 sequences of
    [draw_space], each as likely as any other when [randbelow] is uniform
    and its draws independent.  Every such sequence leads to a
    well-formed secret, and every well-formed secret is led to by exactly
    one of them: the secrets that can be returned are the well-formed
    ones, 5040 in number, each with probability 1/5040. *)
Theorem generate_secret_number_uniform :
  length draw_space = 10 * 9 * 8 * 7
  ∧ (∀ draws,
       draws ∈ draw_space →
       ∃ secret, secret_of_draws draws = Some secret ∧ well_formed secret)
  ∧ (∀ secret,
       well_formed secret →
       ways secret = 1 ∧ probability secret = (1 # 5040)%Q)
  ∧ (∀ (G : Type) (source : RandomSource G) (g : G),
       let '(j0, g0) := randbelow 10 g in
       let '(j1, g1) := randbelow 9 g0 in
       let '(j2, g2) := randbelow 8 g1 in
       let '(j3, g3) := randbelow 7 g2 in
       [j0; j1; j2; j3] ∈ draw_space
       ∧ ∃ secret,
           secret_of_draws [j0; j1; j2; j3] = Some secret
           ∧ generate_secret_number g = Ok (secret, g3)).
Proof.
  split_and!.
  - apply length_draw_space.
  - intros draws Hin.
    destruct (secret_of_draws_forward draws Hin) as (secret & ? & ? & _).
    by exists secret.
  - intros secret Hwf. pose proof (ways_well_formed secret Hwf) as Hways.
    split; [done|]. unfold probability.
    by rewrite Hways, length_draw_space.
  - intros G source g. apply generate_secret_number_asks.
Qed.

Lemma generate_secret_number_uniform_witness :
  (∃ secret, secret_of_draws [3; 3; 3; 3] = Some secret ∧ well_formed secret)
  ∧ (ways (lit "3987") = 1 ∧ probability (lit "3987") = (1 # 5040)%Q)
  ∧ ([3; 3; 3; 3] ∈ draw_space
     ∧ ∃ secret,
         secret_of_draws [3; 3; 3; 3] = Some secret
         ∧ generate_secret_number [3; 3; 3; 3] = Ok (secret, [])).
Proof.
  destruct generate_secret_number_uniform as (_ & Hfwd & Hbwd & Hasks).
  split_and!.
  - apply Hfwd. apply elem_of_tuples. repeat (constructor; [lia|]). constructor.
  - apply Hbwd. apply (bool_decide_unpack _). vm_compute. exact I.
  - apply Hbwd. apply (bool_decide_unpack _). vm_compute. exact I.
  - apply (Hasks (list nat) script_source [3; 3; 3; 3]).
  - apply (Hasks (list nat) script_source [3; 3; 3; 3]).
Defined.

(* ===================================================================== *)
(** * Further properties of the scoring                                   *)
(* ===================================================================== *)

Lemma overrun_lookup guess secret :
  overrun guess secret ↔
  ∃ i g, guess !! i = Some g ∧ g ∈ secret ∧ length secret ≤ i.
Proof.
  unfold overrun. rewrite Exists_exists. split.
  - intros (g & Hg & Hin). apply list_elem_of_lookup_1 in Hg as [i Hi].
    rewrite lookup_drop in Hi. exists (length secret + i), g.
    split_and!; [done|done|lia].
  - intros (i & g & Hi & Hin & Hlen). exists g. split; [|done].
    apply list_elem_of_lookup_2 with (i - length secret).
    rewrite lookup_drop. by replace (length secret + (i - length secret)) with i by lia.
Qed.

(** The loop raises [IndexError] as soon as it meets a character of the
    secret at a position that the secret does not have. *)
Lemma evaluate_loop_overrun secret guess : ∀ idx b c,
  (∃ i g, guess !! i = Some g ∧ g ∈ secret ∧ length secret ≤ idx + i) →
  evaluate_loop secret idx guess (score_dict (Score b c)) = Raise IndexError.
Proof.
  induction guess as [|digit guess IH]; intros idx b c (i & g & Hi & Hin & Hlen).
  - by rewrite lookup_nil in Hi.
  - cbn [evaluate_loop].
    destruct (decide (digit ∈ secret ∧ length secret ≤ idx)) as [[Hd Hl]|Hno].
    + unfold evaluate_step, contains, getitem.
      rewrite bool_decide_eq_true_2 by done.
      by rewrite lookup_ge_None_2 by done.
    + rewrite evaluate_step_judge by (intros ?; apply Nat.nle_gt; tauto).
      cbn [mbind outcome_bind]. apply IH.
      destruct i as [|i].
      * injection Hi as ->. exfalso. apply Hno. split; [done|lia].
      * exists i, g. split_and!; [done|done|lia].
Qed.

Lemma tally_imap_ext v (f f' : nat → N → verdict) (l : list N) :
  (∀ i g, f i g = v ↔ f' i g = v) →
  tally v (imap f l) = tally v (imap f' l).
Proof.
  revert f f'. induction l as [|g l IH]; intros f f' Hff'; [done|].
  cbn [imap]. rewrite !tally_cons.
  rewrite (IH (f ∘ S) (f' ∘ S)) by (intros; apply Hff').
  f_equal. repeat case_bool_decide; try done; exfalso; naive_solver.
Qed.

Lemma matches_cons a g b s :
  matches (a :: g) (b :: s) = (if decide (a = b) then 1 else 0) + matches g s.
Proof.
  unfold matches. cbn [zip zip_with]. rewrite filter_cons. cbn [fst snd].
  by case_decide.
Qed.

Lemma tally_Bull_matches guess : ∀ secret,
  tally Bull (imap (judge secret) guess) = Z.of_nat (matches guess secret).
Proof.
  induction guess as [|g guess IH]; intros secret; [done|].
  cbn [imap]. rewrite tally_cons.
  destruct secret as [|a secret].
  - rewrite tally_none.
    + rewrite bool_decide_eq_false_2; [done|].
      rewrite judge_Bull. by rewrite lookup_nil.
    + intros (i & Hi)%list_elem_of_lookup_1.
      rewrite list_lookup_imap in Hi.
      destruct (guess !! i) as [g'|]; [|done]. simpl in Hi.
      injection Hi as Hi. apply judge_Bull in Hi. by rewrite lookup_nil in Hi.
  - rewrite (tally_imap_ext Bull _ (judge secret)).
    2:{ intros i g'. simpl. by rewrite !judge_Bull. }
    rewrite IH, matches_cons.
    assert (judge (a :: secret) 0 g = Bull ↔ g = a) as Hj.
    { rewrite judge_Bull. simpl. split; congruence. }
    case_decide; [rewrite bool_decide_eq_true_2 by tauto
                 |rewrite bool_decide_eq_false_2 by tauto]; lia.
Qed.

Lemma tally_hits secret guess : ∀ f : nat → N → verdict,
  (∀ i g, f i g = Miss ↔ g ∉ secret) →
  (tally Bull (imap f guess) + tally Cow (imap f guess))%Z =
    Z.of_nat (hits guess secret).
Proof.
  unfold hits. induction guess as [|g guess IH]; intros f Hf; [done|].
  cbn [imap]. rewrite !tally_cons, filter_cons.
  specialize (IH (f ∘ S) ltac:(intros; apply Hf)).
  specialize (Hf 0 g).
  destruct (decide (g ∈ secret)) as [Hin|Hnin]; cbn [length].
  - destruct (f 0 g); try (exfalso; tauto);
      repeat case_bool_decide; try done; lia.
  - apply Hf in Hnin. rewrite Hnin.
    repeat case_bool_decide; try done; lia.
Qed.

Lemma matches_le guess : ∀ secret, matches guess secret ≤ length guess.
Proof.
  unfold matches. intros secret.
  etrans; [apply length_filter|]. rewrite length_zip_with. lia.
Qed.

Lemma matches_sym guess : ∀ secret, matches guess secret = matches secret guess.
Proof.
  induction guess as [|a g IH]; intros [|b s]; try done.
  rewrite !matches_cons, IH. repeat case_decide; congruence.
Qed.

(** Two strings of the same length agree everywhere exactly when they are
    equal. *)
Lemma matches_full guess : ∀ secret,
  length guess = length secret →
  matches guess secret = length guess ↔ guess = secret.
Proof.
  induction guess as [|a g IH]; intros [|b s] Hlen; try done.
  rewrite matches_cons. cbn [length] in *.
  pose proof (matches_le g s). specialize (IH s ltac:(lia)).
  case_decide as Hab.
  - subst b. split.
    + intros Hm. f_equal. apply IH. lia.
    + intros [= ->]. f_equal. apply IH. done.
  - split; [lia|]. intros [= -> ->]. done.
Qed.

Lemma hits_size guess secret :
  NoDup guess →
  hits guess secret = size (list_to_set guess ∩ list_to_set secret : gset N).
Proof.
  intros Hnd. unfold hits.
  rewrite <- (size_list_to_set (C := gset N)) by by apply NoDup_filter.
  f_equal. apply set_eq. intros x.
  rewrite elem_of_list_to_set, list_elem_of_filter, elem_of_intersection.
  rewrite !elem_of_list_to_set. tauto.
Qed.

(** The score in closed form. *)
Lemma evaluate_guess_ref_closed guess secret :
  evaluate_guess_ref guess secret =
    Score (Z.of_nat (matches guess secret))
          (Z.of_nat (hits guess secret) - Z.of_nat (matches guess secret)).
Proof.
  unfold evaluate_guess_ref. cbn zeta.
  pose proof (tally_hits secret guess (judge secret)
                ltac:(intros; apply judge_Miss)) as Hh.
  rewrite tally_Bull_matches in *. f_equal. lia.
Qed.

Lemma Ok_inj {A} (a b : A) : Ok a = Ok b → a = b.
Proof. by intros [= ->]. Qed.

Lemma score_dict_inj s1 s2 : score_dict s1 = score_dict s2 → s1 = s2.
Proof.
  destruct s1 as [b1 c1], s2 as [b2 c2]. unfold score_dict. simpl. intros Heq.
  assert (Hb : ({[ "bulls" := b1; "cows" := c1 ]} : gmap string Z) !! "bulls"
               = Some b2) by (rewrite Heq; apply lookup_insert_eq).
  assert (Hc : ({[ "bulls" := b1; "cows" := c1 ]} : gmap string Z) !! "cows"
               = Some c2).
  { rewrite Heq. rewrite lookup_insert_ne by done. apply lookup_singleton_eq. }
  rewrite lookup_insert_eq in Hb.
  rewrite lookup_insert_ne, lookup_singleton_eq in Hc by done. congruence.
Qed.

(** [evaluate_guess] raises exactly on the guesses that overrun the
    secret, and then it raises [IndexError]; on every other pair of
    strings it returns the reference score.  A guess longer than the
    secret is scored as long as its extra characters are foreign to the
    secret. *)
Theorem evaluate_guess_overrun (guess secret : list N) :
  (overrun guess secret → evaluate_guess guess secret = Raise IndexError)
  ∧ (¬ overrun guess secret →
     evaluate_guess guess secret =
       Ok (score_dict (evaluate_guess_ref guess secret))).
Proof.
  split.
  - intros (i & g & Hi & Hin & Hlen)%overrun_lookup. unfold evaluate_guess.
    apply (evaluate_loop_overrun secret guess 0 0 0).
    exists i, g. split_and!; [done|done|lia].
  - intros Hno. apply evaluate_guess_ref_total. intros i g Hi Hin.
    apply Nat.nle_gt. intros Hlen. apply Hno, overrun_lookup. eauto.
Qed.

Lemma evaluate_guess_overrun_witness :
  evaluate_guess (lit "11") (lit "1") = Raise IndexError
  ∧ evaluate_guess (lit "12") (lit "1") =
      Ok (score_dict (evaluate_guess_ref (lit "12") (lit "1"))).
Proof.
  split.
  - apply (proj1 (evaluate_guess_overrun (lit "11") (lit "1"))).
    apply (bool_decide_unpack _). vm_compute. exact I.
  - apply (proj2 (evaluate_guess_overrun (lit "12") (lit "1"))).
    apply (bool_decide_unpack _). vm_compute. exact I.
Defined.

(** The score in closed form, for a guess no longer than the secret and
    whatever the characters (repeated ones too): the bulls are the
    positions at which guess and secret agree, and bulls and cows together
    are the positions of the guess whose character occurs in the secret. *)
Theorem evaluate_guess_closed_form (guess secret : list N) :
  length guess ≤ length secret →
  ∃ b c : Z,
    evaluate_guess guess secret = Ok (score_dict (Score b c))
    ∧ b = Z.of_nat (matches guess secret)
    ∧ (b + c)%Z = Z.of_nat (hits guess secret)
    ∧ (0 ≤ c)%Z ∧ (b + c ≤ Z.of_nat (length guess))%Z.
Proof.
  intros Hlen. eexists _, _. split.
  - rewrite evaluate_guess_ref_le by done.
    by rewrite evaluate_guess_ref_closed.
  - pose proof (evaluate_guess_ref_bound guess secret) as Hb.
    rewrite evaluate_guess_ref_closed in Hb. cbn in Hb. split_and!; lia.
Qed.

Lemma evaluate_guess_closed_form_witness :
  ∃ b c : Z,
    evaluate_guess (lit "1122") (lit "1212") = Ok (score_dict (Score b c))
    ∧ b = Z.of_nat (matches (lit "1122") (lit "1212"))
    ∧ (b + c)%Z = Z.of_nat (hits (lit "1122") (lit "1212"))
    ∧ (0 ≤ c)%Z ∧ (b + c ≤ Z.of_nat (length (lit "1122")))%Z.
Proof.
  apply (evaluate_guess_closed_form (lit "1122") (lit "1212")). simpl. lia.
Defined.

(** On strings of the same length, the score has as many bulls as the
    guess has characters exactly when the guess is the secret: the test
    [guess == secret] of the callers and the count of 4 bulls agree. *)
Theorem evaluate_guess_all_bulls (guess secret : list N) :
  length guess = length secret →
  (∃ c, evaluate_guess guess secret =
          Ok (score_dict (Score (Z.of_nat (length guess)) c)))
  ↔ guess = secret.
Proof.
  intros Hlen. rewrite evaluate_guess_ref_le, evaluate_guess_ref_closed by lia.
  split.
  - intros [c Heq%Ok_inj%score_dict_inj]. injection Heq as Hm _.
    apply matches_full; [done|lia].
  - intros Heq. apply (matches_full _ _ Hlen) in Heq. rewrite Heq. eauto.
Qed.

Lemma evaluate_guess_all_bulls_witness :
  (∃ c, evaluate_guess (lit "1234") (lit "1234") =
          Ok (score_dict (Score (Z.of_nat (length (lit "1234"))) c)))
  ↔ lit "1234" = lit "1234".
Proof.
  apply (evaluate_guess_all_bulls (lit "1234") (lit "1234")). reflexivity.
Defined.

(** Scoring is symmetric on two strings of the same length that repeat no
    character: the guess scored against the secret and the secret scored
    against the guess give the same bulls and cows. *)
Theorem evaluate_guess_symmetric (guess secret : list N) :
  NoDup guess → NoDup secret → length guess = length secret →
  evaluate_guess guess secret = evaluate_guess secret guess.
Proof.
  intros Hg Hs Hlen.
  rewrite !evaluate_guess_ref_le, !evaluate_guess_ref_closed by lia.
  rewrite (matches_sym guess secret), !hits_size by done.
  by rewrite (comm_L (∩)).
Qed.

Lemma evaluate_guess_symmetric_witness :
  evaluate_guess (lit "7814") (lit "7846") =
  evaluate_guess (lit "7846") (lit "7814").
Proof.
  apply (evaluate_guess_symmetric (lit "7814") (lit "7846"));
    [apply (bool_decide_unpack _); vm_compute; exact I..|reflexivity].
Defined.

(** Without the distinctness of the characters the symmetry is lost. *)
Example evaluate_guess_asymmetric :
  evaluate_guess (lit "11") (lit "12") = Ok (score_dict (Score 1 1))
  ∧ evaluate_guess (lit "12") (lit "11") = Ok (score_dict (Score 1 0)).
Proof. split; vm_compute; reflexivity. Qed.

(** For a guess no longer than the secret, the score is 0 bulls and 0
    cows exactly when the guess shares no character with the secret. *)
Theorem evaluate_guess_zero (guess secret : list N) :
  length guess ≤ length secret →
  evaluate_guess guess secret = Ok (score_dict (Score 0 0))
  ↔ Forall (λ d, d ∉ secret) guess.
Proof.
  intros Hlen. rewrite evaluate_guess_ref_le by done. split.
  - intros Heq%Ok_inj%score_dict_inj. apply Forall_forall. intros d Hd Hin.
    rewrite evaluate_guess_ref_closed in Heq. injection Heq as Hm Hh.
    assert (Hz : hits guess secret = 0) by lia. unfold hits in Hz.
    apply length_zero_iff_nil in Hz.
    exact (filter_nil_not_elem_of (λ g, g ∈ secret) guess d Hz Hin Hd).
  - intros Hdis. rewrite Forall_forall in Hdis.
    by rewrite evaluate_guess_ref_disjoint.
Qed.

Lemma evaluate_guess_zero_witness :
  evaluate_guess (lit "5678") (lit "1234") = Ok (score_dict (Score 0 0))
  ↔ Forall (λ d, d ∉ lit "1234") (lit "5678").
Proof.
  apply (evaluate_guess_zero (lit "5678") (lit "1234")). simpl. lia.
Defined.

(* ===================================================================== *)
(** * Generating, saving and loading                                      *)
(* ===================================================================== *)

(** The generator returns, and what it returns is well formed. *)
Lemma generate_secret_number_returns {G} `{!RandomSource G} (g : G) :
  ∃ secret g', generate_secret_number g = Ok (secret, g') ∧ well_formed secret.
Proof.
  destruct (sample_spec (range 10) 4 g)
    as (digits & g' & Hrun & Hlen & Hnd & Hsub);
    [apply NoDup_seq|simpl; lia|lia|simpl; lia|].
  assert (Hlt : Forall (λ d, d < 10) digits).
  { apply Forall_forall. intros d Hd. apply Hsub in Hd.
    unfold range in Hd. apply elem_of_seq in Hd. lia. }
  exists (digit_char <$> digits), g'.
  unfold generate_secret_number. rewrite Hrun. cbn [mbind outcome_bind].
  rewrite join_digits by done. split; [done|]. split_and!.
  - by rewrite length_fmap.
  - apply Forall_fmap. eapply Forall_impl; [done|].
    intros d Hd. by apply digit_char_decimal.
  - apply (NoDup_fmap_2 digit_char). exact Hnd.
Qed.

(** Every secret that the generator returns passes the validator: the
    secret is itself a guess that the game accepts. *)
Theorem generate_secret_number_valid {G} `{!RandomSource G} (g : G) :
  ∃ secret g',
    generate_secret_number g = Ok (secret, g')
    ∧ is_valid_guess secret = (true, ""%string).
Proof.
  destruct (generate_secret_number_returns g) as (secret & g' & Hrun & Hwf).
  exists secret, g'. split; [done|]. by apply well_formed_valid.
Qed.

Lemma generate_secret_number_valid_witness :
  ∃ secret g',
    generate_secret_number [9; 0; 5; 6] = Ok (secret, g')
    ∧ is_valid_guess secret = (true, ""%string).
Proof.
  apply (generate_secret_number_valid (G := list nat) [9; 0; 5; 6]).
Defined.

Lemma lstrip_spaces ws s :
  Forall (λ c, isspace_char c = true) ws → lstrip (ws ++ s) = lstrip s.
Proof. induction 1 as [|c ws Hc _ IH]; [done|]. simpl. by rewrite Hc. Qed.

Lemma lstrip_id s : ¬ begins_with_space s → lstrip s = s.
Proof.
  destruct s as [|c s]; [done|]. simpl. intros Hc.
  by destruct (isspace_char c).
Qed.

Lemma lstrip_begins s : ¬ begins_with_space (lstrip s).
Proof.
  induction s as [|c s IH]; [by intros []|]. simpl.
  destruct (isspace_char c) eqn:Hc; [done|]. simpl. congruence.
Qed.

Lemma lstrip_suffix s : ∃ ws, s = ws ++ lstrip s.
Proof.
  induction s as [|c s [ws IH]]; [by exists []|]. simpl.
  destruct (isspace_char c); [|by exists []].
  exists (c :: ws). simpl. by f_equal.
Qed.

(** Stripping removes the whitespace around an unpadded string. *)
Lemma strip_padded ws1 s ws2 :
  Forall (λ c, isspace_char c = true) ws1 →
  Forall (λ c, isspace_char c = true) ws2 →
  unpadded s →
  strip (ws1 ++ s ++ ws2) = s.
Proof.
  intros H1 H2 [Hl Hr]. unfold strip, rstrip.
  rewrite lstrip_spaces by done.
  destruct s as [|c s].
  - simpl. rewrite <- (app_nil_r ws2), lstrip_spaces by done. done.
  - rewrite (lstrip_id ((c :: s) ++ ws2)) by exact Hl. rewrite reverse_app.
    rewrite lstrip_spaces by by apply Forall_reverse.
    by rewrite lstrip_id, reverse_involutive.
Qed.

Lemma strip_unpadded s : unpadded (strip s).
Proof.
  unfold strip, rstrip. split.
  - destruct (lstrip_suffix (reverse (lstrip s))) as [ws Hws].
    pose proof (lstrip_begins s) as Hb.
    apply (f_equal reverse) in Hws.
    rewrite reverse_involutive, reverse_app in Hws.
    destruct (reverse (lstrip (reverse (lstrip s)))) as [|c r] eqn:Hr;
      [by intros []|].
    rewrite Hws in Hb. done.
  - rewrite reverse_involutive. apply lstrip_begins.
Qed.

Lemma strip_id s : unpadded s → strip s = s.
Proof.
  intros Hs. pose proof (strip_padded [] s [] ltac:(done) ltac:(done) Hs) as Hid.
  by rewrite app_nil_r in Hid.
Qed.

Lemma well_formed_unpadded s : well_formed s → unpadded s.
Proof.
  intros (_ & Hdec & _).
  assert (Hns : ∀ c, is_decimal c → isspace_char c ≠ true).
  { intros c [Hlo Hhi]. unfold isspace_char, in_ranges, space_ranges.
    cbn [existsb fst snd]. intros Hsp.
    repeat (apply orb_prop in Hsp as [Hsp|Hsp];
            [apply andb_true_iff in Hsp as [?%N.leb_le ?%N.leb_le]; lia|]).
    done. }
  split.
  - destruct s as [|c s]; [by intros []|]. simpl.
    apply Forall_cons in Hdec as [Hc _]. by apply Hns.
  - apply Forall_reverse in Hdec.
    destruct (reverse s) as [|c r]; [by intros []|]. simpl.
    apply Forall_cons in Hdec as [Hc _]. by apply Hns.
Qed.

Lemma universal_newlines_id s : 13%N ∉ s → universal_newlines s = s.
Proof.
  induction s as [|c s IH]; [done|].
  rewrite not_elem_of_cons. intros [Hc Hs]. simpl.
  rewrite bool_decide_eq_false_2 by done. by rewrite IH.
Qed.

Lemma well_formed_no_cr s : well_formed s → 13%N ∉ s.
Proof.
  intros (_ & Hdec & _) Hin. rewrite Forall_forall in Hdec.
  apply Hdec in Hin. unfold is_decimal in Hin. lia.
Qed.

(** [load_secret_number] returns the content of the file without the
    whitespace around it: a secret saved with a newline after it, or
    indented, is loaded as the secret alone. *)
Theorem load_secret_number_padded
    (fs : gmap string (list N)) (filepath : string) (ws1 s ws2 : list N) :
  fs !! filepath = Some (ws1 ++ s ++ ws2) →
  Forall (λ c, isspace_char c = true) ws1 →
  Forall (λ c, isspace_char c = true) ws2 →
  unpadded s →
  load_secret_number fs filepath = Ok s.
Proof.
  intros Hf H1 H2 Hs. rewrite (load_secret_number_present _ _ _ Hf).
  by rewrite strip_padded.
Qed.

Lemma load_secret_number_padded_witness :
  load_secret_number {[ default_filepath := lit " 1234" ++ [10%N] ]}
    default_filepath = Ok (lit "1234").
Proof.
  apply (load_secret_number_padded _ _ (lit " ") (lit "1234") [10%N]).
  - reflexivity.
  - repeat constructor.
  - repeat constructor.
  - split; simpl; discriminate.
Defined.

(** Whatever the file holds, the string that [load_secret_number] returns
    neither begins nor ends with whitespace, and stripping it again
    changes nothing. *)
Theorem load_secret_number_unpadded
    (fs : gmap string (list N)) (filepath : string) (s : list N) :
  load_secret_number fs filepath = Ok s →
  unpadded s ∧ strip s = s.
Proof.
  unfold load_secret_number, read_text.
  destruct (fs !! filepath) as [content|]; [|done].
  intros [= <-]. split; [apply strip_unpadded|].
  apply strip_id, strip_unpadded.
Qed.

Lemma load_secret_number_unpadded_witness :
  unpadded (lit "12 34") ∧ strip (lit "12 34") = lit "12 34".
Proof.
  apply (load_secret_number_unpadded
           {[ default_filepath := lit "  12 34 " ]} default_filepath).
  reflexivity.
Defined.

Lemma drop_while_all {A} (P : A → bool) (l : list A) :
  Forall (λ x, P x = true) l → drop_while P l = [].
Proof. induction 1 as [|x l Hx _ IH]; [done|]. simpl. by rewrite Hx. Qed.

(** A path without separator has no directory part. *)
Lemma dirname_no_sep (p : string) :
  Forall (λ a, is_sep a = false) (String.list_ascii_of_string p) →
  dirname p = ""%string.
Proof.
  intros Hp. unfold dirname, rstrip_while.
  rewrite (drop_while_all (λ a, negb (is_sep a))).
  - done.
  - apply Forall_reverse. eapply Forall_impl; [done|].
    intros a Ha. simpl. by rewrite Ha.
Qed.

(** [save_secret_number] cannot save under a bare file name: for a
    [filepath] without separator, as in
    [save_secret_number(secret, "secret.txt")], the directory part is
    empty, [os.makedirs] raises [FileNotFoundError] on it, and the file
    is never opened. *)
Theorem save_secret_number_bare_name {S} `{!FileSystem S}
    (secret : list N) (filepath : string) (s : S) :
  Forall (λ a, is_sep a = false) (String.list_ascii_of_string filepath) →
  save_secret_number secret filepath s = Raise FileNotFoundError.
Proof.
  intros Hp. unfold save_secret_number.
  by rewrite dirname_no_sep, makedirs_empty.
Qed.

Lemma save_secret_number_bare_name_witness :
  save_secret_number (lit "1234") "secret.txt" (∅ : gmap string (list N)) =
    Raise FileNotFoundError.
Proof.
  apply (save_secret_number_bare_name (S := gmap string (list N))).
  apply (bool_decide_unpack _). vm_compute. exact I.
Defined.

Lemma save_then_load {S} `{!FileSystem S}
    (secret : list N) (filepath : string) (s s' : S) :
  save_secret_number secret filepath s = Ok s' →
  load_secret_number (text_files s') filepath =
    Ok (strip (universal_newlines secret))
  ∧ (well_formed secret →
     load_secret_number (text_files s') filepath = Ok secret).
Proof.
  unfold save_secret_number. intros Hsave.
  destruct (makedirs (dirname filepath) s) as [s1|e]; [|done].
  cbn [mbind outcome_bind] in Hsave.
  apply write_text_read in Hsave.
  rewrite (load_secret_number_present _ _ _ Hsave). split; [done|].
  intros Hwf. rewrite universal_newlines_id by by apply well_formed_no_cr.
  f_equal. by apply strip_id, well_formed_unpadded.
Qed.

(** A secret that was saved is loaded back from the same path, without
    the whitespace around it and with its carriage returns read as line
    feeds; a well-formed secret is loaded back as it was saved. *)
Theorem save_load_secret_number {S} `{!FileSystem S}
    (secret : list N) (filepath : string) (s s' : S) :
  save_secret_number secret filepath s = Ok s' →
  load_secret_number (text_files s') filepath =
    Ok (strip (universal_newlines secret))
  ∧ (well_formed secret →
     load_secret_number (text_files s') filepath = Ok secret).
Proof. apply save_then_load. Qed.

Lemma save_load_secret_number_witness :
  let s' : gmap string (list N) :=
    <[default_filepath := universal_newlines (lit "1234")]> ∅ in
  load_secret_number (text_files s') default_filepath =
    Ok (strip (universal_newlines (lit "1234")))
  ∧ (well_formed (lit "1234") →
     load_secret_number (text_files s') default_filepath = Ok (lit "1234")).
Proof.
  intros s'.
  apply (save_load_secret_number (lit "1234") default_filepath ∅ s').
  reflexivity.
Defined.

(** A carriage return inside the secret does not survive the round trip. *)
Example save_load_carriage_return :
  (s ← save_secret_number (lit "12" ++ [13%N] ++ lit "4") default_filepath
         (∅ : gmap string (list N));
   load_secret_number s default_filepath)
  = Ok (lit "12" ++ [10%N] ++ lit "4").
Proof. reflexivity. Qed.

(** When [generate_and_save_secret] returns, the secret it returns is
    well formed and is the one that [load_secret_number], called without
    argument, then loads. *)
Theorem generate_and_save_secret_load {G S} `{!RandomSource G, !FileSystem S}
    (g g' : G) (s s' : S) (secret : list N) :
  generate_and_save_secret g s = Ok (secret, g', s') →
  well_formed secret
  ∧ load_secret_number (text_files s') default_filepath = Ok secret.
Proof.
  unfold generate_and_save_secret.
  destruct (generate_secret_number_returns g) as (sec & g1 & Hgen & Hwf).
  rewrite Hgen. cbn [mbind outcome_bind].
  destruct (save_secret_number sec default_filepath s) as [s1|e] eqn:Hsave;
    [|done].
  cbn [mbind outcome_bind]. intros [= <- <- <-]. split; [done|].
  destruct (save_then_load sec default_filepath s s1 Hsave)
    as [_ Hload]. by apply Hload.
Qed.

Lemma generate_and_save_secret_load_witness :
  let s' : gmap string (list N) := <[default_filepath := lit "3987"]> ∅ in
  well_formed (lit "3987")
  ∧ load_secret_number (text_files s') default_filepath = Ok (lit "3987").
Proof.
  intros s'.
  apply (generate_and_save_secret_load [3; 3; 3; 3] [] ∅ s' (lit "3987")).
  reflexivity.
Defined.

(* ===================================================================== *)
(** * The terminal game                                                   *)
(* ===================================================================== *)

Import cli_game.

Section terminal_game.
Variable lower : list N → list N.

Lemma get_valid_guess_done stdin : ∀ stdout guess stdin' stdout',
  get_valid_guess lower stdin stdout = Done (guess, stdin', stdout') →
  ∃ skipped entered,
    stdin = skipped ++ entered :: stdin'
    ∧ Forall (rejected lower) skipped
    ∧ guess = lower (strip entered)
    ∧ (guess = lit "quit" ∨ is_valid_guess guess = (true, ""%string))
    ∧ stdout' = stdout ++ rejections lower skipped ++ [Ask_guess].
Proof.
  induction stdin as [|entered stdin IH]; intros stdout guess stdin' stdout' Hrun;
    [done|].
  cbn [get_valid_guess] in Hrun.
  case_bool_decide as Hquit.
  { injection Hrun as <- <- <-. exists [], entered.
    split_and!; [done|done|done|by left|done]. }
  destruct (is_valid_guess (lower (strip entered))) as [valid error_msg] eqn:Hv.
  destruct valid.
  { injection Hrun as <- <- <-. exists [], entered.
    split_and!; [done|done|done| |done].
    right. apply is_valid_guess_accepts. by rewrite Hv. }
  apply IH in Hrun as (skipped & entered' & -> & Hrej & -> & Hok & ->).
  exists (entered :: skipped), entered'.
  split_and!; [done| |done|done|].
  - constructor; [|done]. split; [done|]. by rewrite Hv.
  - unfold rejections. cbn [mbind list_bind]. rewrite Hv.
    cbn [snd]. by rewrite <- !(assoc_L (++)).
Qed.

Lemma get_valid_guess_stop stdin : ∀ stdout why,
  get_valid_guess lower stdin stdout = Stop why →
  why = EOFError ∧ Forall (rejected lower) stdin.
Proof.
  induction stdin as [|entered stdin IH]; intros stdout why Hrun.
  - by injection Hrun as <-.
  - cbn [get_valid_guess] in Hrun.
    case_bool_decide as Hquit; [done|].
    destruct (is_valid_guess (lower (strip entered))) as [valid error_msg] eqn:Hv.
    destruct valid; [done|].
    apply IH in Hrun as [-> Hrej]. split; [done|].
    constructor; [|done]. split; [done|]. by rewrite Hv.
Qed.

(** [get_valid_guess] returns the first line entered that, stripped and
    lowered, is the word [quit] or passes the validator, and nothing
    else; it answers each line before it with the validator's reason, and
    leaves the lines after it unread.  It stops only when the input ends
    first, on [EOFError]. *)
Theorem get_valid_guess_first_valid
    (stdin : list (list N)) (stdout : list message) :
  (∀ guess stdin' stdout',
     get_valid_guess lower stdin stdout = Done (guess, stdin', stdout') →
     ∃ skipped entered,
       stdin = skipped ++ entered :: stdin'
       ∧ Forall (rejected lower) skipped
       ∧ guess = lower (strip entered)
       ∧ (guess = lit "quit" ∨ is_valid_guess guess = (true, ""%string))
       ∧ stdout' = stdout ++ rejections lower skipped ++ [Ask_guess])
  ∧ (∀ why,
       get_valid_guess lower stdin stdout = Stop why →
       why = EOFError ∧ Forall (rejected lower) stdin).
Proof.
  split; [apply get_valid_guess_done|apply get_valid_guess_stop].
Qed.

Lemma dict_getitem_bulls b c :
  dict_getitem (score_dict (Score b c)) "bulls" = Ok b.
Proof. unfold dict_getitem, score_dict. simpl. by rewrite lookup_insert_eq. Qed.

Lemma dict_getitem_cows b c :
  dict_getitem (score_dict (Score b c)) "cows" = Ok c.
Proof.
  unfold dict_getitem, score_dict. simpl.
  by rewrite lookup_insert_ne, lookup_singleton_eq.
Qed.

Lemma history_entries_scored secret0 h :
  Forall (scored secret0) h → ∃ entries, history_entries h = Ok entries.
Proof.
  induction 1 as [|[guess result] h (_ & _ & Hres) _ [entries IH]];
    [by exists []|].
  simpl in Hres. subst result. cbn [history_entries].
  destruct (evaluate_guess_ref guess secret0) as [b c].
  rewrite dict_getitem_bulls, dict_getitem_cows. cbn [mbind outcome_bind].
  rewrite IH. cbn [mbind outcome_bind]. eauto.
Qed.

Lemma display_history_in_play self :
  in_play self → ∃ shown, display_history self = Ok shown.
Proof.
  intros [_ Hh]. unfold display_history.
  destruct (history_entries_scored _ _ Hh) as [entries Hen].
  destruct (history self); [by exists []|].
  rewrite Hen. cbn [mbind outcome_bind]. eauto.
Qed.

(** One game, from any state in play: the loop stops for want of fuel
    only if it was given no more fuel than there are lines to read. *)
Lemma play_loop_in_play fuel : ∀ self stdin stdout,
  in_play self →
  match play_loop lower fuel self stdin stdout with
  | Done (self', stdin', stdout') =>
      secret self' = secret self
      ∧ in_play self'
      ∧ history self `prefix_of` history self'
      ∧ length stdin' < length stdin
      ∧ ((last stdout' = Some (Farewell (secret self'))
          ∧ attempts self' - attempts self =
              Z.of_nat (length (history self')) - Z.of_nat (length (history self)))
         ∨ (last stdout' = Some (Congratulations (secret self') (attempts self'))
            ∧ attempts self' - attempts self =
                Z.of_nat (length (history self'))
                - Z.of_nat (length (history self)) + 1))%Z
  | Stop why => why = EOFError ∨ (why = OutOfFuel ∧ fuel ≤ length stdin)
  end.
Proof.
  induction fuel as [|fuel IH]; intros self stdin stdout Hplay.
  { right. split; [done|lia]. }
  cbn [play_loop].
  destruct (display_history_in_play self Hplay) as [shown ->].
  cbn [lift mbind run_bind].
  destruct (get_valid_guess lower stdin (stdout ++ shown))
    as [[[guess stdin1] stdout1]|why] eqn:Hget.
  2:{ apply get_valid_guess_stop in Hget as [-> _]. by left. }
  apply get_valid_guess_done in Hget
    as (skipped & entered & -> & _ & -> & Hok & ->).
  assert (Hshorter : length stdin1 < length (skipped ++ entered :: stdin1)).
  { rewrite length_app. cbn [length]. lia. }
  cbn [mbind run_bind]. cbn beta iota.
  case_bool_decide as Hquit.
  { split_and!; [done|done|done|done|]. left. rewrite last_snoc.
    split; [done|lia]. }
  destruct Hok as [?|Hvalid]; [done|].
  cbn [secret attempts history].
  case_bool_decide as Hwin.
  { split_and!; [done|done|done|done|]. right. rewrite last_snoc.
    cbn [secret attempts history]. split; [done|lia]. }
  destruct Hplay as [Hsecret Hhist].
  pose proof Hvalid as (Hlg & _)%is_valid_guess_accepts%is_valid_guess_true.
  pose proof Hsecret as (Hls & _)%is_valid_guess_accepts%is_valid_guess_true.
  rewrite evaluate_guess_ref_le by lia. cbn [lift mbind run_bind].
  destruct (evaluate_guess_ref (lower (strip entered)) (secret self))
    as [b c] eqn:Href.
  rewrite dict_getitem_bulls, dict_getitem_cows. cbn [lift mbind run_bind].
  match goal with |- context [play_loop lower fuel ?self2 ?i ?o] =>
    specialize (IH self2 i o); destruct (play_loop lower fuel self2 i o)
      as [[[self' stdin'] stdout']|why] end.
  - destruct IH as (Hs & Hp & Hpre & Hlen & Hend).
    { split; [done|]. cbn [secret history].
      apply Forall_app. split; [done|]. constructor; [|done].
      split_and!; [done|done|]. simpl. by rewrite Href. }
    cbn [secret attempts history] in *.
    assert (Hgrow : length (history self) + 1 ≤ length (history self')).
    { apply prefix_length in Hpre. rewrite length_app in Hpre. simpl in Hpre.
      lia. }
    rewrite length_app in Hend. cbn [length] in Hend.
    split_and!; [done|done| |lia|].
    + etrans; [|done]. by apply prefix_app_r.
    + destruct Hend as [[? ?]|[? ?]]; [left|right]; split; try done; lia.
  - destruct IH as [->|[-> Hfuel]].
    { split; [done|]. cbn [secret history].
      apply Forall_app. split; [done|]. constructor; [|done].
      split_and!; [done|done|]. simpl. by rewrite Href. }
    + by left.
    + right. split; [done|]. lia.
Qed.

(** A scored entry never shows 4 bulls: the guess is not the secret. *)
Lemma scored_bounds secret0 entry :
  is_valid_guess secret0 = (true, ""%string) →
  scored secret0 entry →
  ∃ b c : Z,
    entry.2 = score_dict (Score b c)
    ∧ (0 ≤ b < 4)%Z ∧ (0 ≤ c)%Z ∧ (b + c ≤ 4)%Z.
Proof.
  intros (Hls & _)%is_valid_guess_accepts%is_valid_guess_true.
  intros ((Hlg & _)%is_valid_guess_accepts%is_valid_guess_true & Hne & ->).
  pose proof (evaluate_guess_ref_bound entry.1 secret0) as Hb.
  rewrite evaluate_guess_ref_closed in *. cbn in Hb.
  eexists _, _. split; [done|].
  pose proof (matches_le entry.1 secret0) as Hle.
  assert (matches entry.1 secret0 ≠ length entry.1).
  { intros Hm. apply Hne. apply matches_full; [lia|done]. }
  lia.
Qed.

(** [play_game] raises nothing: from a state in play it ends, by a win or
    by the word [quit], or the input ends first ([EOFError]).  Neither
    [evaluate_guess] nor the look-ups of [result['bulls']] and
    [result['cows']] can fail, and the fuel always suffices. *)
Theorem play_game_no_crash
    (self : game) (stdin : list (list N)) (stdout : list message) :
  in_play self →
  (∃ end_state, play_game lower self stdin stdout = Done end_state)
  ∨ play_game lower self stdin stdout = Stop EOFError.
Proof.
  intros Hplay. unfold play_game.
  pose proof (play_loop_in_play (S (length stdin)) self stdin
                (stdout ++ [Welcome]) Hplay) as Hrun.
  destruct (play_loop lower (S (length stdin)) self stdin (stdout ++ [Welcome]))
    as [end_state|why]; [left; eauto|].
  right. destruct Hrun as [->|[_ ?]]; [done|lia].
Qed.

Lemma replay_skip secret0 skipped : ∀ rest,
  Forall (rejected lower) skipped →
  replay lower secret0 (skipped ++ rest) = replay lower secret0 rest.
Proof.
  intros rest. induction 1 as [|entered skipped [Hquit Hinvalid] _ IH]; [done|].
  rewrite <- app_comm_cons. cbn [replay].
  rewrite bool_decide_eq_false_2 by done. by rewrite Hinvalid.
Qed.

Lemma replay_misses secret0 stdin : ∀ misses how unread,
  replay lower secret0 stdin = Some (misses, how, unread) →
  Forall (λ g, is_valid_guess g = (true, ""%string) ∧ g ≠ secret0) misses.
Proof.
  induction stdin as [|entered stdin IH]; intros misses how unread; [done|].
  cbn [replay]. case_bool_decide as Hquit; [by intros [= <- _ _]|].
  destruct (is_valid_guess (lower (strip entered))) as [valid msg] eqn:Hv.
  cbn [fst]. destruct valid; cbn [negb]; [|apply IH].
  case_bool_decide as Hwin; [by intros [= <- _ _]|].
  destruct (replay lower secret0 stdin) as [[[m h] u]|]; [|done].
  cbn. intros [= <- <- <-]. constructor; [|by eapply IH].
  split; [|done]. apply is_valid_guess_accepts. by rewrite Hv.
Qed.

Lemma final_game_quit self : final_game self [] Quit = self.
Proof.
  destruct self as [s0 a0 h0]. unfold final_game.
  cbn [secret attempts history length fmap list_fmap].
  f_equal; [lia|apply app_nil_r].
Qed.

Lemma final_game_won self :
  final_game self [] Won =
    {| secret := secret self; attempts := attempts self + 1;
       history := history self |}.
Proof.
  unfold final_game. cbn [length fmap list_fmap].
  f_equal; [lia|apply app_nil_r].
Qed.

(** One game, from any state in play, against the course that [replay]
    reads off the input. *)
Lemma play_loop_replay fuel : ∀ self stdin stdout,
  in_play self → length stdin < fuel →
  match replay lower (secret self) stdin with
  | None => play_loop lower fuel self stdin stdout = Stop EOFError
  | Some (misses, how, unread) =>
      ∃ stdout',
        play_loop lower fuel self stdin stdout =
          Done (final_game self misses how, unread, stdout')
        ∧ last stdout' =
            Some (final_message (final_game self misses how) how)
  end.
Proof.
  induction fuel as [|fuel IH]; intros self stdin stdout Hplay Hfuel; [lia|].
  cbn [play_loop].
  destruct (display_history_in_play self Hplay) as [shown ->].
  cbn [lift mbind run_bind].
  destruct (get_valid_guess lower stdin (stdout ++ shown))
    as [[[guess stdin1] stdout1]|why] eqn:Hget.
  2:{ apply get_valid_guess_stop in Hget as [-> Hrej].
      rewrite <- (app_nil_r stdin), replay_skip by done. done. }
  apply get_valid_guess_done in Hget
    as (skipped & entered & -> & Hrej & -> & Hok & ->).
  rewrite replay_skip by done. cbn [replay].
  cbn [mbind run_bind]. cbn beta iota. cbn [secret attempts history].
  case_bool_decide as Hquit.
  { rewrite final_game_quit. eexists. split; [done|]. by rewrite last_snoc. }
  destruct Hok as [?|Hvalid]; [done|]. rewrite Hvalid. cbn [fst negb].
  case_bool_decide as Hwin.
  { rewrite final_game_won. eexists. split; [done|]. by rewrite last_snoc. }
  destruct Hplay as [Hsecret Hhist].
  pose proof Hvalid as (Hlg & _)%is_valid_guess_accepts%is_valid_guess_true.
  pose proof Hsecret as (Hls & _)%is_valid_guess_accepts%is_valid_guess_true.
  rewrite evaluate_guess_ref_le by lia. cbn [lift mbind run_bind].
  destruct (evaluate_guess_ref (lower (strip entered)) (secret self))
    as [b c] eqn:Href.
  rewrite dict_getitem_bulls, dict_getitem_cows. cbn [lift mbind run_bind].
  match goal with |- context [play_loop lower fuel ?self2 ?i ?o] =>
    specialize (IH self2 i o) end.
  cbn [secret history] in IH.
  destruct (replay lower (secret self) stdin1) as [[[misses how] unread]|].
  - destruct IH as (stdout' & -> & Hlast).
    { split; [done|]. cbn [secret history].
      apply Forall_app. split; [done|]. constructor; [|done].
      split_and!; [done|done|]. simpl. by rewrite Href. }
    { rewrite length_app in Hfuel. cbn [length] in Hfuel. lia. }
    cbn. exists stdout'.
    assert (Hsame :
      final_game
        {| secret := secret self; attempts := attempts self + 1;
           history :=
             history self ++ [(lower (strip entered), score_dict (Score b c))] |}
        misses how
      = final_game self (lower (strip entered) :: misses) how).
    { unfold final_game, recorded. cbn [secret attempts history length].
      rewrite fmap_cons, Href, <- (assoc_L (++)). cbn [app].
      f_equal. lia. }
    by rewrite <- Hsame.
  - rewrite IH; [done| |].
    { split; [done|]. cbn [secret history].
      apply Forall_app. split; [done|]. constructor; [|done].
      split_and!; [done|done|]. simpl. by rewrite Href. }
    { rewrite length_app in Hfuel. cbn [length] in Hfuel. lia. }
Qed.

(** The record that [play_game] leaves is a function of the lines
    entered.  Where [replay] reads off them the misses, in order, the way
    the game ended and the lines left unread, [play_game] ends with
    exactly these misses appended to the history, each with its
    [evaluate_guess] score, with [attempts] raised by their number, and
    by one more for the winning guess, with the same secret, with the
    unread lines left, and with the message of that ending printed last;
    each miss is a validated guess other than the secret.  Where the
    lines run out first, [play_game] stops on [EOFError].  In particular,
    from a state that counts as many attempts as its history has entries,
    the final history is made of scored entries and [attempts] counts
    them, plus the winning guess if the game was won. *)
Theorem play_game_record
    (self : game) (stdin : list (list N)) (stdout : list message) :
  in_play self →
  match replay lower (secret self) stdin with
  | None => play_game lower self stdin stdout = Stop EOFError
  | Some (misses, how, unread) =>
      Forall (λ g, is_valid_guess g = (true, ""%string) ∧ g ≠ secret self)
             misses
      ∧ ∃ stdout',
          play_game lower self stdin stdout =
            Done (final_game self misses how, unread, stdout')
          ∧ last stdout' =
              Some (final_message (final_game self misses how) how)
  end
  ∧ (∀ (self' : game) (stdin' : list (list N)) (stdout' : list message),
       attempts self = Z.of_nat (length (history self)) →
       play_game lower self stdin stdout = Done (self', stdin', stdout') →
       secret self' = secret self
       ∧ Forall (scored (secret self)) (history self')
       ∧ ((last stdout' = Some (Farewell (secret self))
           ∧ attempts self' = Z.of_nat (length (history self')))
          ∨ (last stdout' = Some (Congratulations (secret self) (attempts self'))
             ∧ attempts self' = (Z.of_nat (length (history self')) + 1)%Z))).
Proof.
  intros Hplay. split.
  - unfold play_game.
    pose proof (play_loop_replay (S (length stdin)) self stdin
                  (stdout ++ [Welcome]) Hplay ltac:(lia)) as Hrun.
    destruct (replay lower (secret self) stdin)
      as [[[misses how] unread]|] eqn:Hreplay; [|done].
    split; [by eapply replay_misses|done].
  - intros self' stdin' stdout' Hatt Hrun. unfold play_game in Hrun.
    pose proof (play_loop_in_play (S (length stdin)) self stdin
                  (stdout ++ [Welcome]) Hplay) as Hspec.
    rewrite Hrun in Hspec. destruct Hspec as (Hs & [_ Hh] & _ & _ & Hend).
    rewrite Hs in *. split_and!; [done|done|].
    destruct Hend as [[? ?]|[? ?]]; [left|right]; split; try done; lia.
Qed.

(** No entry of the history shows 4 bulls, and each shows at most 4 bulls
    and cows together. *)
Theorem play_game_history_bounds
    (self self' : game) (stdin stdin' : list (list N))
    (stdout stdout' : list message) :
  in_play self →
  play_game lower self stdin stdout = Done (self', stdin', stdout') →
  Forall (λ entry, ∃ b c : Z,
            entry.2 = score_dict (Score b c)
            ∧ (0 ≤ b < 4)%Z ∧ (0 ≤ c)%Z ∧ (b + c ≤ 4)%Z)
         (history self').
Proof.
  intros Hplay Hrun. unfold play_game in Hrun.
  pose proof (play_loop_in_play (S (length stdin)) self stdin
                (stdout ++ [Welcome]) Hplay) as Hspec.
  rewrite Hrun in Hspec. destruct Hspec as (_ & [Hv Hh] & _).
  eapply Forall_impl; [done|]. intros entry. by apply scored_bounds.
Qed.

Lemma play_again_shorter stdin : ∀ stdout,
  match play_again lower stdin stdout with
  | Done (_, stdin', _) => length stdin' < length stdin
  | Stop why => why = EOFError
  end.
Proof.
  induction stdin as [|entered stdin IH]; intros stdout; [done|].
  cbn [play_again]. repeat case_bool_decide; cbn [length]; try lia.
  specialize (IH ((stdout ++ [Ask_again]) ++ [Please_y_or_n])).
  destruct (play_again lower stdin _) as [[[again stdin'] stdout']|why];
    [lia|done].
Qed.

Lemma new_game_in_play {G} `{!RandomSource G} (g : G) :
  ∃ self g', new_game g = Ok (self, g') ∧ in_play self
             ∧ attempts self = 0%Z ∧ history self = [].
Proof.
  destruct (generate_secret_number_returns g) as (s0 & g' & Hgen & Hwf).
  exists {| secret := s0; attempts := 0; history := [] |}, g'.
  unfold new_game. rewrite Hgen. cbn [mbind outcome_bind].
  split_and!; try done. split; [by apply well_formed_valid|constructor].
Qed.

Lemma main_loop_in_play {G} `{!RandomSource G} fuel : ∀ (g : G) stdin stdout,
  match main_loop lower fuel g stdin stdout with
  | Done _ => True
  | Stop why => why = EOFError ∨ (why = OutOfFuel ∧ fuel ≤ length stdin)
  end.
Proof.
  induction fuel as [|fuel IH]; intros g stdin stdout.
  { right. split; [done|lia]. }
  cbn [main_loop].
  destruct (new_game_in_play g) as (self & g' & -> & Hplay & _).
  cbn [lift mbind run_bind]. cbn beta iota. unfold play_game.
  pose proof (play_loop_in_play (S (length stdin)) self stdin
                (stdout ++ [Welcome]) Hplay) as Hgame.
  destruct (play_loop lower (S (length stdin)) self stdin (stdout ++ [Welcome]))
    as [[[self' stdin1] stdout1]|why].
  2:{ cbn [mbind run_bind]. destruct Hgame as [->|[_ ?]]; [by left|lia]. }
  destruct Hgame as (_ & _ & _ & Hlen1 & _).
  cbn [mbind run_bind]. cbn beta iota.
  pose proof (play_again_shorter stdin1 stdout1) as Hagain.
  destruct (play_again lower stdin1 stdout1)
    as [[[again stdin2] stdout2]|why].
  2:{ cbn [mbind run_bind]. by left. }
  cbn [mbind run_bind]. cbn beta iota. destruct again; [|done].
  specialize (IH g' stdin2 stdout2).
  destruct (main_loop lower fuel g' stdin2 stdout2); [done|].
  destruct IH as [->|[-> ?]]; [by left|]. right. split; [done|lia].
Qed.

(** The whole terminal program raises nothing, whatever the user enters
    and whatever the random source draws: [main] runs to its end, or the
    input ends first ([EOFError]).  Every game that it starts has a
    well-formed secret, and no guess that reaches [evaluate_guess] can
    make it fail. *)
Theorem main_no_crash {G} `{!RandomSource G}
    (g : G) (stdin : list (list N)) :
  (∃ end_state, main lower g stdin = Done end_state)
  ∨ main lower g stdin = Stop EOFError.
Proof.
  unfold main.
  pose proof (main_loop_in_play (S (length stdin)) g stdin []) as Hrun.
  destruct (main_loop lower (S (length stdin)) g stdin [])
    as [[[g' stdin'] stdout']|why].
  - left. cbn [mbind run_bind]. eauto.
  - right. cbn [mbind run_bind]. destruct Hrun as [->|[_ ?]]; [done|lia].
Qed.

End terminal_game.

Lemma get_valid_guess_first_valid_witness :
  ∃ skipped entered,
    [lit "12"; lit " QUIT "; lit "x"] = skipped ++ entered :: [lit "x"]
    ∧ Forall (rejected ascii_lower) skipped
    ∧ lit "quit" = ascii_lower (strip entered)
    ∧ (lit "quit" = lit "quit"
       ∨ is_valid_guess (lit "quit") = (true, ""%string))
    ∧ [Ask_guess; Invalid "Input must be exactly 4 digits long"; Ask_guess] =
        [] ++ rejections ascii_lower skipped ++ [Ask_guess].
Proof.
  apply (proj1 (get_valid_guess_first_valid ascii_lower
                  [lit "12"; lit " QUIT "; lit "x"] [])).
  reflexivity.
Defined.

Lemma play_game_no_crash_witness :
  let self := {| secret := lit "1234"; attempts := 0; history := [] |} in
  (∃ end_state,
     play_game ascii_lower self [lit "1243"; lit "quit"] [] = Done end_state)
  ∨ play_game ascii_lower self [lit "1243"; lit "quit"] [] = Stop EOFError.
Proof.
  intros self. apply (play_game_no_crash ascii_lower self).
  split; [reflexivity|constructor].
Defined.

Lemma play_game_record_witness :
  let self := {| secret := lit "1234"; attempts := 0; history := [] |} in
  let stdin := [lit "12"; lit "1243"; lit " 5678"; lit "1234"; lit "0000"] in
  let misses := [lit "1243"; lit "5678"] in
  (Forall (λ g, is_valid_guess g = (true, ""%string) ∧ g ≠ secret self) misses
   ∧ ∃ stdout',
       play_game ascii_lower self stdin [] =
         Done ({| secret := lit "1234"; attempts := 3;
                  history := [(lit "1243", score_dict (Score 2 2));
                              (lit "5678", score_dict (Score 0 0))] |},
               [lit "0000"], stdout')
       ∧ last stdout' = Some (Congratulations (lit "1234") 3))
  ∧ (∀ (self' : game) (stdin' : list (list N)) (stdout' : list message),
       attempts self = Z.of_nat (length (history self)) →
       play_game ascii_lower self stdin [] = Done (self', stdin', stdout') →
       secret self' = secret self
       ∧ Forall (scored (secret self)) (history self')
       ∧ ((last stdout' = Some (Farewell (secret self))
           ∧ attempts self' = Z.of_nat (length (history self')))
          ∨ (last stdout' = Some (Congratulations (secret self) (attempts self'))
             ∧ attempts self' = (Z.of_nat (length (history self')) + 1)%Z))).
Proof.
  intros self stdin misses.
  apply (play_game_record ascii_lower self stdin []).
  split; [reflexivity|constructor].
Defined.

Lemma play_game_history_bounds_witness :
  let self := {| secret := lit "1234"; attempts := 0; history := [] |} in
  let self' := {| secret := lit "1234"; attempts := 1;
                  history := [(lit "1243", score_dict (Score 2 2))] |} in
  Forall (λ entry, ∃ b c : Z,
            entry.2 = score_dict (Score b c)
            ∧ (0 ≤ b < 4)%Z ∧ (0 ≤ c)%Z ∧ (b + c ≤ 4)%Z)
         (history self').
Proof.
  intros self self'.
  apply (play_game_history_bounds ascii_lower self self'
           [lit "1243"; lit "Quit"] [] []
           [Welcome; Ask_guess; Result 2 2;
            History [(lit "1243", 2%Z, 2%Z)]; Ask_guess;
            Farewell (lit "1234")]).
  - split; [reflexivity|constructor].
  - vm_compute. reflexivity.
Defined.

Lemma main_no_crash_witness :
  (∃ end_state,
     main ascii_lower [3; 3; 3; 3] [lit "3987"; lit "n"] = Done end_state)
  ∨ main ascii_lower [3; 3; 3; 3] [lit "3987"; lit "n"] = Stop EOFError.
Proof.
  apply (main_no_crash ascii_lower (G := list nat)).
Defined.
